(** * Configuration overrides of core/server/config/google.js

    A shallow embedding of [getConfigOverrides] and [unflatten], with the
    lodash 3 collection functions the two are written with, and the
    properties of the override resolver proved over it.

    Conventions of the embedding.
    - A JavaScript value is a [value]: the documentation of
      [getConfigOverrides] describes configuration properties as "primitive
      types, or ... objects containing subkey-value pairs, nested to an
      arbitrary depth", which is what the type holds.  Arrays, functions and
      [undefined] as a property value are not values of the model; a number
      is an integer.  [undefined] as the result of a call is [None].
    - An object whose properties the program enumerates ([process.env], the
      result of minimist, the exports of a required file, the combined
      parameters) is a [props]: its own properties in enumeration order.
      A nested object is a finite map; its enumeration order never reaches
      the result.
    - A thrown exception is [Throw]; [require] and the objects it returns
      live in a store ([exports]) addressed by references, because
      [_.assign] writes into its first argument.
    - Strings are sequences of code units below 256.
    - The prototype chain is not part of the embedding: the property name
      [__proto__] is taken as an ordinary name, where JavaScript reads and
      writes the prototype through it.  Nor is lodash's test for one of its
      own wrappers: an environment with variables named [__chain__] and
      [__wrapped__] is taken as an ordinary object.  [ordinary_param] and
      [unwrapped] below say when an input stays clear of the two. *)

From stdpp Require Import base option list strings gmap.
From Stdlib Require Import ZArith NArith Ascii String Lia.

Local Open Scope string_scope.
Local Open Scope Z_scope.

(** ** Values *)

#[warnings="-register-all"]
Inductive value : Type :=
| VNull
| VBool (b : bool)
| VNum (n : Z)
| VStr (s : string)
| VObj (o : gmap string value).

Fixpoint vsize (v : value) : nat :=
  match v with
  | VObj o => S (map_fold (λ _ x n, (vsize x + n)%nat) 0%nat o)
  | _ => 1%nat
  end.

(** ** Completions: a call returns or throws *)

Inductive exn : Type :=
| TypeError
| RangeError
| LoadError (path : string).

Inductive completion (A : Type) : Type :=
| Return (a : A)
| Throw (e : exn).
Arguments Return {A} a.
Arguments Throw {A} e.

Definition cbind {A B} (c : completion A) (k : A → completion B) : completion B :=
  match c with
  | Return a => k a
  | Throw e => Throw e
  end.

Notation "'let*' x ':=' c 'in' k" := (cbind c (λ x, k))
  (at level 10, x binder, c at level 100, k at level 200).

Fixpoint mapM {A B} (f : A → completion B) (l : list A) : completion (list B) :=
  match l with
  | [] => Return []
  | x :: l' =>
      let* y := f x in
      let* ys := mapM f l' in
      Return (y :: ys)
  end.

(** ** Strings *)

Definition hyphen : ascii := "-"%char.
Definition underscore : ascii := "_"%char.

(** [s.split(sep)] for a one-character separator. *)
Fixpoint split (sep : ascii) (s : string) : list string :=
  match s with
  | EmptyString => [EmptyString]
  | String c s' =>
      if Ascii.eqb c sep then EmptyString :: split sep s'
      else match split sep s' with
           | seg :: rest => String c seg :: rest
           | [] => [String c EmptyString]
           end
  end.

(** [segs.join(sep)]. *)
Fixpoint join (sep : ascii) (segs : list string) : string :=
  match segs with
  | [] => EmptyString
  | [seg] => seg
  | seg :: rest => seg +:+ String sep (join sep rest)
  end.

Fixpoint occurs (c : ascii) (s : string) : bool :=
  match s with
  | EmptyString => false
  | String c' s' => Ascii.eqb c' c || occurs c s'
  end.

(** [s.replace(/_/g, '-')]. *)
Fixpoint replace_all (from to : ascii) (s : string) : string :=
  match s with
  | EmptyString => EmptyString
  | String c s' => String (if Ascii.eqb c from then to else c) (replace_all from to s')
  end.

(** ** The two regular expressions

    Both expressions of the source are a literal anchored at the start of
    the name, followed by one group of a dot under a star; the second has
    the [i] flag.  The dot matches any character but a line terminator, so
    the group captures the rest of the name up to the first one. *)

Record regexp : Type := { literal : string; ignoreCase : bool }.

Definition npm_package_config : regexp :=
  {| literal := "npm_package_config_"; ignoreCase := false |}.
Definition ghost : regexp :=
  {| literal := "ghost_"; ignoreCase := true |}.

(** Canonicalize of the [i] flag: a lower-case ASCII letter becomes its
    upper-case letter (no other character is mapped to an ASCII one). *)
Definition canonicalize (c : ascii) : ascii :=
  let n := N_of_ascii c in
  if ((97 <=? n) && (n <=? 122))%N then ascii_of_N (n - 32) else c.

Definition char_matches (i : bool) (pat c : ascii) : bool :=
  if i then Ascii.eqb (canonicalize pat) (canonicalize c) else Ascii.eqb pat c.

Definition line_terminator (c : ascii) : bool :=
  Ascii.eqb c "010"%char || Ascii.eqb c "013"%char.

(** The longest run of the starred dot at the start of [s]. *)
Fixpoint dot_star (s : string) : string :=
  match s with
  | EmptyString => EmptyString
  | String c s' => if line_terminator c then EmptyString else String c (dot_star s')
  end.

(** What is left of [s] after [lit] matched at its start. *)
Fixpoint match_literal (i : bool) (lit s : string) : option string :=
  match lit, s with
  | EmptyString, _ => Some s
  | String p lit', String c s' =>
      if char_matches i p c then match_literal i lit' s' else None
  | String _ _, EmptyString => None
  end.

(** [p.exec(k)[1]] when the expression matches, [None] for the [null] that
    [exec] returns when it does not. *)
Definition exec1 (p : regexp) (k : string) : option string :=
  dot_star <$> match_literal (ignoreCase p) (literal p) k.

(** [p.test(k)]. *)
Definition test (p : regexp) (k : string) : bool :=
  bool_decide (is_Some (exec1 p k)).

(** ** Objects with enumerated properties *)

Definition props (A : Type) : Type := list (string * A).

Fixpoint get {A} (o : props A) (k : string) : option A :=
  match o with
  | [] => None
  | (k', x) :: o' => if String.eqb k k' then Some x else get o' k
  end.

Definition digit (c : ascii) : option N :=
  let n := N_of_ascii c in
  if ((48 <=? n) && (n <=? 57))%N then Some (n - 48)%N else None.

Fixpoint digits (s : string) (acc : N) : option N :=
  match s with
  | EmptyString => Some acc
  | String c s' =>
      match digit c with
      | Some d => digits s' (10 * acc + d)%N
      | None => None
      end
  end.

(** An array index is the canonical decimal spelling of an integer below
    2^32 - 1; such property names are enumerated first, in numeric order. *)
Definition array_index (k : string) : option N :=
  match k with
  | EmptyString => None
  | String "0"%char EmptyString => Some 0%N
  | String "0"%char _ => None
  | _ =>
      match digits k 0 with
      | Some n => if (n <? 2 ^ 32 - 1)%N then Some n else None
      | None => None
      end
  end.

Fixpoint update {A} (k : string) (x : A) (o : props A) : props A :=
  match o with
  | [] => []
  | (k', x') :: o' =>
      if String.eqb k k' then (k, x) :: o' else (k', x') :: update k x o'
  end.

Fixpoint insert_index {A} (n : N) (k : string) (x : A) (o : props A) : props A :=
  match o with
  | [] => [(k, x)]
  | (k', x') :: o' =>
      match array_index k' with
      | Some m => if (m <? n)%N then (k', x') :: insert_index n k x o' else (k, x) :: o
      | None => (k, x) :: o
      end
  end.

(** [o[k] = x] on an ordinary object: an existing property keeps its place,
    a new array index is put among the indices, any other new name comes
    last. *)
Definition put {A} (o : props A) (k : string) (x : A) : props A :=
  match get o k with
  | Some _ => update k x o
  | None =>
      match array_index k with
      | Some n => insert_index n k x o
      | None => (o ++ [(k, x)])%list
      end
  end.

(** ** lodash *)

(** [_.pick(object, predicate)]: the properties the predicate accepts, set
    one by one on a new object. *)
Definition pick {A} (predicate : A → string → bool) (object : props A) : props A :=
  fold_left (λ result '(k, v), if predicate v k then put result k v else result)
            object [].

(** [_.map(object, iteratee)] over the own properties of an object that is
    not array-like. *)
Definition map_props {A B} (iteratee : A → string → completion B) (object : props A)
  : completion (list B) :=
  mapM (λ '(k, v), iteratee v k) object.

(** [_.object(pairs)], that is [_.zipObject]. *)
Definition zipObject {A} (pairs : list (string * A)) : props A :=
  fold_left (λ result '(k, v), put result k v) pairs [].

(** [baseAssign]: every own property of [source] is set on [object]. *)
Definition baseAssign {A} (object source : props A) : props A :=
  fold_left (λ result '(k, v), put result k v) source object.

(** [_.assign(object, ...sources)], sources that are [undefined] skipped. *)
Definition assign {A} (object : props A) (sources : list (option (props A))) : props A :=
  fold_left (λ result source,
               match source with
               | Some s => baseAssign result s
               | None => result
               end) sources object.

(** [_.assign.apply(undefined, objects)]: the first element is the object
    written to; with no element at all the call returns [undefined]. *)
Definition assign_apply {A} (objects : list (props A)) : option (props A) :=
  match objects with
  | [] => None
  | object :: sources => Some (assign object (Some <$> sources))
  end.

(** [_.reduce(array, iteratee)] without an initial accumulator: the first
    element starts the accumulation, and an empty array gives [undefined]. *)
Definition reduce {A} (iteratee : A → A → A) (array : list A) : option A :=
  match array with
  | [] => None
  | x :: rest => Some (fold_left iteratee rest x)
  end.

Definition MAX_SAFE_INTEGER : Z := 2 ^ 53 - 1.

(** [isLength]. *)
Definition isLength (v : value) : option Z :=
  match v with
  | VNum n => if (0 <=? n) && (n <=? MAX_SAFE_INTEGER) then Some n else None
  | _ => None
  end.

(** [isArrayLike(object)] with the length found: lodash iterates an object
    whose [length] property is a valid length like an array. *)
Definition isArrayLike (object : props value) : option Z :=
  get object "length" ≫= isLength.

(** The object a value is merged into: itself if it is an object, a new
    empty one otherwise. *)
Definition plain (objValue : option value) : gmap string value :=
  match objValue with
  | Some (VObj o) => o
  | _ => ∅
  end.

(** [_.merge]: [mergeInto srcValue objValue] is what [baseMerge] leaves in
    [object[key]] for the source value [srcValue] when [object[key]] was
    [objValue] ([None] when absent).  A primitive is assigned; for a plain
    object [baseMergeDeep] merges it into [objValue] if that is a plain
    object and into a new [{}] otherwise. *)
Fixpoint mergeInto (srcValue : value) (objValue : option value) {struct srcValue} : value :=
  match srcValue with
  | VObj source =>
      VObj (map_fold (λ key x object, <[key := mergeInto x (object !! key)]> object)
              (plain objValue) source)
  | _ => srcValue
  end.

Definition baseMerge (object source : gmap string value) : gmap string value :=
  map_fold (λ key x object, <[key := mergeInto x (object !! key)]> object) object source.

(** [_.merge(object, source)] as [_.reduce] calls it (the index and the array
    it passes on are recognised and dropped by lodash).  Both arguments are
    objects in every call the program makes; an [object] that is not an
    object is returned as it is, and so is the object for a source that is
    not one. *)
Definition merge (object source : value) : value :=
  match object, source with
  | VObj o, VObj s => VObj (baseMerge o s)
  | _, _ => object
  end.

(** [_.map(collection, iteratee)]: the iteratee is called with a value and
    its key.  For an object the key is a property name; for an array-like
    collection lodash makes [Array(length)] (a [RangeError] above 2^32 - 1)
    and calls the iteratee with [collection[index]] and the numeric index,
    for every index below the length. *)
Inductive entry : Type :=
| Own (k : string) (v : value)
| Element (index : Z) (v : option value).

Definition element (collection : props value) (index : Z) : entry :=
  Element index
    (snd <$> List.find (λ '(k, _), bool_decide (array_index k = Some (Z.to_N index)))
                       collection).

Definition lodash_map {B} (iteratee : entry → completion B) (collection : props value)
  : completion (list B) :=
  match isArrayLike collection with
  | Some length =>
      if 2 ^ 32 - 1 <? length then Throw RangeError
      else mapM (λ i, iteratee (element collection i)) (seqZ 0 length)
  | None => mapM (λ '(k, v), iteratee (Own k v)) collection
  end.

(** ** node: path, require and the process *)

Definition path_isAbsolute (path : string) : bool :=
  match path with
  | String "/"%char _ => true
  | _ => false
  end.

(** [normalizeArray]: [res] is kept with its last part first. *)
Fixpoint normalizeArray (parts : list string) (allowAboveRoot : bool) (res : list string)
  : list string :=
  match parts with
  | [] => rev res
  | p :: parts' =>
      if String.eqb p "" || String.eqb p "." then normalizeArray parts' allowAboveRoot res
      else if String.eqb p ".." then
        match res with
        | last :: res' =>
            if String.eqb last ".." then
              normalizeArray parts' allowAboveRoot
                (if allowAboveRoot then ".." :: res else res)
            else normalizeArray parts' allowAboveRoot res'
        | [] => normalizeArray parts' allowAboveRoot (if allowAboveRoot then [".."] else [])
        end
      else normalizeArray parts' allowAboveRoot (p :: res)
  end.

Fixpoint last_char (s : string) : option ascii :=
  match s with
  | EmptyString => None
  | String c EmptyString => Some c
  | String _ s' => last_char s'
  end.

Definition path_normalize (path : string) : string :=
  let isAbsolute := path_isAbsolute path in
  let trailingSlash := bool_decide (last_char path = Some "/"%char) in
  let path1 := join "/"%char (normalizeArray (split "/"%char path) (negb isAbsolute) []) in
  let path2 := if String.eqb path1 "" && negb isAbsolute then "." else path1 in
  let path3 := if negb (String.eqb path2 "") && trailingSlash then path2 +:+ "/" else path2 in
  (if isAbsolute then "/" else "") +:+ path3.

(** [path.join(a, b)] of the POSIX [path] module. *)
Definition path_join (a b : string) : string :=
  path_normalize
    (if String.eqb a "" then b
     else if String.eqb b "" then a
     else a +:+ "/" +:+ b).

(** An object that [require] returns is shared: it lives in [require]'s
    cache, and [_.assign] writes into it.  Such objects are addressed by a
    reference into a store. *)
Definition ref : Type := nat.
Definition store : Type := ref → props value.

(** What the running process gives the function: [process.env] in
    enumeration order; the result of [minimist(process.argv.slice(2))],
    split into its [_] property and its other properties in enumeration
    order; [process.cwd()]; for every path the object [require] returns or
    the exception it throws; and the contents of those objects. *)
Record process : Type := {
  env : props string;
  args_ : list value;
  args_options : props value;
  cwd : string;
  require : string → completion ref;
  exports : store
}.

(** [_.assign] on references: the source is read from the store as it is at
    that moment and the object is updated in the store. *)
Definition assign_ref (h : store) (object source : ref) : store :=
  λ r, if decide (r = object) then baseAssign (h object) (h source) else h r.

(** [_.assign.apply(undefined, objects)] on references. *)
Definition assign_apply_refs (h : store) (objects : list ref) : option ref * store :=
  match objects with
  | [] => (None, h)
  | object :: sources => (Some object, fold_left (λ h' s, assign_ref h' object s) sources h)
  end.

(** ** The program *)

(** [unflatten(keys, value)].  On an empty [keys] the test
    [keys.length === 1] fails and the call recurses on [keys.slice(1)],
    which is empty again: the stack overflows, a [RangeError]. *)
Fixpoint unflatten (keys : list string) (val : value) : completion value :=
  match keys with
  | [] => Throw RangeError
  | [k] => Return (VObj {[k := val]})
  | k :: rest =>
      let* inner := unflatten rest val in
      Return (VObj {[k := inner]})
  end.

(** The function mapped over the two expressions: the variables whose name
    the expression matches, with the name replaced by the captured group,
    underscores turned into hyphens. *)
Definition envPattern (environment : props string) (p : regexp) : completion (props value) :=
  let* pairs :=
    map_props (λ v k,
                 match exec1 p k with
                 | Some group => Return (replace_all underscore hyphen group, VStr v)
                 | None => Throw TypeError
                 end)
              (pick (λ _ k, test p k) environment) in
  Return (zipObject pairs).

(** The function mapped over [args._]. *)
Definition requireArg (proc : process) (arg : value) : completion ref :=
  match arg with
  | VStr arg =>
      let abspath := if path_isAbsolute arg then arg else path_join (cwd proc) arg in
      require proc abspath
  | _ => Throw TypeError
  end.

(** [envParams]: the object of the second expression assigned over the
    object of the first. *)
Definition envParams (environment : props string) : completion (option (props value)) :=
  let* objects := mapM (envPattern environment) [npm_package_config; ghost] in
  Return (assign_apply objects).

(** [jsonjsParams]: every positional argument is required, then the
    objects are assigned into the first of them. *)
Definition jsonjsParams (proc : process) : completion (option (props value)) :=
  let* modules := mapM (requireArg proc) (args_ proc) in
  let '(object, h) := assign_apply_refs (exports proc) modules in
  Return (h <$> object).

(** [params]: the combined flat mapping. *)
Definition params (proc : process) : completion (props value) :=
  let* envParams := envParams (env proc) in
  let* jsonjsParams := jsonjsParams proc in
  let optionParams := args_options proc in
  Return (assign [] [envParams; jsonjsParams; Some optionParams]).

(** The function mapped over [params].  For a numeric index [k.split] is
    not a function. *)
Definition expand (e : entry) : completion value :=
  match e with
  | Own k v => unflatten (split hyphen k) v
  | Element _ _ => Throw TypeError
  end.

(** [getConfigOverrides()]: what it returns ([None] for [undefined]) or
    throws. *)
Definition getConfigOverrides (proc : process) : completion (option value) :=
  let* params := params proc in
  let* trees := lodash_map expand params in
  Return (reduce merge trees).

(** Reading a tree at a path, one property after the other. *)
Fixpoint get_path (t : value) (path : list string) : option value :=
  match path with
  | [] => Some t
  | k :: path' =>
      match t with
      | VObj o => o !! k ≫= λ x, get_path x path'
      | _ => None
      end
  end.

(** The tree with the single path [k :: rest] that ends in [v]. *)
Fixpoint nested (k : string) (rest : list string) (v : value) : value :=
  VObj {[k := match rest with
              | [] => v
              | k' :: rest' => nested k' rest' v
              end]}.

(** Two paths collide when one is a prefix of the other: one of them
    addresses the place of the other or a place above it. *)
Definition collide (p q : list string) : Prop :=
  p `prefix_of` q ∨ q `prefix_of` p.

(** A family of paths no two of which collide. *)
Fixpoint independent (paths : list (list string)) : Prop :=
  match paths with
  | [] => True
  | p :: rest => Forall (λ q, ¬ collide p q) rest ∧ independent rest
  end.

#[global] Instance collide_dec p q : Decision (collide p q).
Proof. unfold collide. apply _. Defined.

#[global] Instance independent_dec paths : Decision (independent paths).
Proof. induction paths; simpl; apply _. Defined.

(** The key path of a parameter, and the tree its expansion returns. *)
Definition key_path (k : string) : list string := split hyphen k.

Definition expansion (kv : string * value) : value :=
  match key_path kv.1 with
  | k1 :: rest => nested k1 rest kv.2
  | [] => VObj ∅
  end.

(** The parameter name a variable stands for under an expression. *)
Definition derived_key (p : regexp) (name : string) : string :=
  replace_all underscore hyphen (default "" (exec1 p name)).

Definition derived_pair (p : regexp) (variable : string * string) : string * value :=
  (derived_key p variable.1, VStr variable.2).

(** The object the mapped function builds for an expression. *)
Definition pattern_object (p : regexp) (environment : props string) : props value :=
  zipObject (derived_pair p <$> pick (λ _ k, test p k) environment).

(** Equality of strings up to the case of ASCII letters. *)
Fixpoint same_ignoring_case (a b : string) : bool :=
  match a, b with
  | EmptyString, EmptyString => true
  | String c a', String d b' =>
      Ascii.eqb (canonicalize c) (canonicalize d) && same_ignoring_case a' b'
  | _, _ => false
  end.

(** A value with no property named [__proto__] at any depth, and a parameter
    whose key path and value stay clear of that name. *)
Fixpoint ordinary (v : value) : bool :=
  match v with
  | VObj o =>
      map_fold (λ k x rest, negb (String.eqb k "__proto__") && ordinary x && rest) true o
  | _ => true
  end.

Definition ordinary_param (kv : string * value) : Prop :=
  ("__proto__" ∉ key_path kv.1) ∧ ordinary kv.2 = true.

#[global] Instance ordinary_param_dec kv : Decision (ordinary_param kv).
Proof. unfold ordinary_param. apply _. Defined.

(** An environment lodash does not take for one of its wrappers: [_(value)]
    clones [value] as a wrapper when it has [__chain__] and [__wrapped__] of
    its own. *)
Definition unwrapped (environment : props string) : Prop :=
  get environment "__chain__" = None ∨ get environment "__wrapped__" = None.

#[global] Instance unwrapped_dec environment : Decision (unwrapped environment).
Proof. unfold unwrapped. apply _. Defined.

(** The example of the specification with a file beside it: the two
    variables, the flag, and [config.json] holding
    [{"database": {"connection": {"password": "fromfile"}}}]. *)
Definition flag_and_nested_file : process := {|
  env := [("npm_package_config_database_connection_password", "secret1");
          ("GHOST_database-connection-password", "secret2")];
  args_ := [VStr "config.json"];
  args_options := [("database-connection-password", VStr "secret3")];
  cwd := "/ghost";
  require := λ path,
    if String.eqb path "/ghost/config.json" then Return 0%nat
    else Throw (LoadError path);
  exports := λ _,
    [("database", VObj {["connection" := VObj {["password" := VStr "fromfile"]}]})]
|}.

(** The same command line without the two variables. *)
Definition flag_and_nested_file_no_env : process := {|
  env := [];
  args_ := args_ flag_and_nested_file;
  args_options := args_options flag_and_nested_file;
  cwd := cwd flag_and_nested_file;
  require := require flag_and_nested_file;
  exports := exports flag_and_nested_file
|}.

(** A value that is not an object. *)
Definition primitive (v : value) : bool :=
  match v with
  | VObj _ => false
  | _ => true
  end.

(** The command line [a.json b.json a.json] in [/ghost], where [a.json]
    holds [{"x": 1}] and [b.json] holds [{"x": 2}]: [require] returns the
    object of [a.json] for the first and for the third argument. *)
Definition listed_twice : process := {|
  env := [];
  args_ := [VStr "a.json"; VStr "b.json"; VStr "a.json"];
  args_options := [];
  cwd := "/ghost";
  require := λ path,
    if String.eqb path "/ghost/a.json" then Return 0%nat
    else if String.eqb path "/ghost/b.json" then Return 1%nat
    else Throw (LoadError path);
  exports := λ r, match r with
                  | O => [("x", VNum 1)]
                  | _ => [("x", VNum 2)]
                  end
|}.

(** * Properties *)

(** A decidable statement about given data, settled by evaluation. *)
Ltac by_evaluation :=
  lazymatch goal with
  | |- ?P =>
      let d := constr:(_ : Decision P) in
      apply (@bool_decide_unpack P d); vm_compute; exact I
  end.

(** ** Strings *)

Lemma split_nonempty sep s : split sep s ≠ [].
Proof.
  destruct s as [|c s]; simpl; [done|].
  destruct (Ascii.eqb c sep); [done|].
  by destruct (split sep s).
Qed.

Lemma split_no_sep sep s : occurs sep s = false → split sep s = [s].
Proof.
  induction s as [|c s IH]; simpl; [done|].
  intros [Hc Hs]%orb_false_iff. rewrite Hc, (IH Hs). done.
Qed.

Lemma split_app_sep sep seg rest :
  occurs sep seg = false →
  split sep (seg +:+ String sep rest) = seg :: split sep rest.
Proof.
  induction seg as [|c seg IH]; simpl.
  - intros _. by rewrite Ascii.eqb_refl.
  - intros [Hc Hs]%orb_false_iff. rewrite Hc, (IH Hs). done.
Qed.

Lemma split_join sep segs :
  segs ≠ [] →
  Forall (λ seg, occurs sep seg = false) segs →
  split sep (join sep segs) = segs.
Proof.
  intros Hne Hall. induction Hall as [|seg segs Hseg Hall IH]; [done|].
  destruct segs as [|seg' segs]; simpl.
  - by apply split_no_sep.
  - rewrite split_app_sep by done. f_equal. by apply IH.
Qed.

Lemma split_segments sep s : Forall (λ seg, occurs sep seg = false) (split sep s).
Proof.
  induction s as [|c s IH]; simpl.
  - by repeat constructor.
  - destruct (Ascii.eqb c sep) eqn:Hc.
    + by constructor.
    + destruct (split sep s) as [|seg rest].
      * repeat constructor. simpl. by rewrite Hc.
      * inversion_clear IH. constructor; [|done]. simpl. by rewrite Hc.
Qed.

(** ** Setting and reading properties *)

Section Props.
Context {A : Type}.
Implicit Types (o s object source : props A) (k : string) (x : A).

Lemma get_cons o k k' x :
  get ((k', x) :: o) k = if decide (k = k') then Some x else get o k.
Proof.
  simpl. destruct (String.eqb_spec k k'); by case_decide.
Qed.

Lemma get_app o s k :
  get (o ++ s)%list k = match get o k with Some x => Some x | None => get s k end.
Proof.
  induction o as [|[k' x'] o IH]; [done|].
  rewrite <-app_comm_cons, !get_cons. by case_decide.
Qed.

Lemma get_update o k k' x :
  get (update k x o) k' =
    if decide (k = k') then (λ _, x) <$> get o k else get o k'.
Proof.
  induction o as [|[k1 x1] o IH]; cbn [update].
  - simpl. by case_decide.
  - destruct (String.eqb_spec k k1) as [->|Hne].
    + rewrite !get_cons. repeat case_decide; simplify_eq; done.
    + rewrite !get_cons, IH. repeat case_decide; simplify_eq; done.
Qed.

Lemma get_insert_index n o k k' x :
  get o k = None →
  get (insert_index n k x o) k' = if decide (k = k') then Some x else get o k'.
Proof.
  induction o as [|[k1 x1] o IH]; cbn [insert_index].
  - intros _. rewrite get_cons. simpl. repeat case_decide; simplify_eq; done.
  - rewrite (get_cons o k). destruct (decide (k = k1)) as [->|Hne]; [done|]. intros Hk.
    destruct (array_index k1) as [m|]; [destruct (m <? n)%N|].
    + rewrite !get_cons, (IH Hk). repeat case_decide; simplify_eq; done.
    + rewrite !get_cons. repeat case_decide; simplify_eq; done.
    + rewrite !get_cons. repeat case_decide; simplify_eq; done.
Qed.

Lemma get_put o k k' x :
  get (put o k x) k' = if decide (k = k') then Some x else get o k'.
Proof.
  unfold put. destruct (get o k) as [y|] eqn:Hk.
  - rewrite get_update, Hk. done.
  - destruct (array_index k) as [n|].
    + by apply get_insert_index.
    + rewrite get_app, get_cons. simpl.
      repeat case_decide; simplify_eq; [by rewrite Hk|by destruct (get o k')].
Qed.

(** Setting the pairs of a list one after the other: the last pair of a
    name decides. *)
Lemma get_fold_put (l : props A) o k :
  get (fold_left (λ result '(k, v), put result k v) l o) k =
    match get (reverse l) k return option A with
    | Some x => Some x
    | None => get o k
    end.
Proof.
  revert o. induction l as [|[k1 x1] l IH]; intros o; simpl; [done|].
  rewrite IH, reverse_cons, get_app, get_put. simpl.
  destruct (get (reverse l) k); [done|].
  destruct (String.eqb_spec k k1); case_decide; simplify_eq; done.
Qed.

Lemma get_elem_of o k x : get o k = Some x → (k, x) ∈ o.
Proof.
  induction o as [|[k1 x1] o IH]; [done|]. rewrite get_cons.
  case_decide; intros; simplify_eq; [left|right; auto].
Qed.

Lemma get_is_Some o k : is_Some (get o k) ↔ k ∈ o.*1.
Proof.
  induction o as [|[k1 x1] o IH].
  - split; [by intros [? ?]|by intros ?%elem_of_nil].
  - rewrite get_cons, fmap_cons, elem_of_cons. simpl. case_decide.
    + split; [by left|by eauto].
    + rewrite IH. tauto.
Qed.

Lemma get_None o k : get o k = None ↔ k ∉ o.*1.
Proof. rewrite <-get_is_Some, eq_None_not_Some. done. Qed.

Lemma get_reverse_is_Some o k : is_Some (get (reverse o) k) ↔ is_Some (get o k).
Proof. by rewrite !get_is_Some, fmap_reverse, elem_of_reverse. Qed.

Lemma get_reverse_None o k : get (reverse o) k = None ↔ get o k = None.
Proof. by rewrite !get_None, fmap_reverse, elem_of_reverse. Qed.

Lemma get_baseAssign object source k :
  get (baseAssign object source) k =
    match get (reverse source) k return option A with
    | Some x => Some x
    | None => get object k
    end.
Proof. apply get_fold_put. Qed.

Lemma get_zipObject (pairs : props A) k :
  get (zipObject pairs) k = get (reverse pairs) k.
Proof. unfold zipObject. rewrite get_fold_put. by destruct (get (reverse pairs) k). Qed.

(** [baseAssign] leaves a property of the object alone when the source
    does not have it, and has every property of the source. *)
Lemma get_baseAssign_None object source k :
  get source k = None → get (baseAssign object source) k = get object k.
Proof.
  intros Hk%get_reverse_None. by rewrite get_baseAssign, Hk.
Qed.

End Props.

(** ** Values and [_.merge] *)

Lemma vsize_lookup (o : gmap string value) k x :
  o !! k = Some x → (vsize x < vsize (VObj o))%nat.
Proof.
  intros Hk. simpl.
  rewrite (map_fold_delete_L _ _ k x o); [lia| |done].
  intros. lia.
Qed.

Lemma value_nested_ind (P : value → Prop) :
  P VNull → (∀ b, P (VBool b)) → (∀ n, P (VNum n)) → (∀ s, P (VStr s)) →
  (∀ o : gmap string value, map_Forall (λ _, P) o → P (VObj o)) →
  ∀ v, P v.
Proof.
  intros Hnull Hbool Hnum Hstr Hobj v.
  remember (vsize v) as n eqn:Hn. revert v Hn.
  induction n as [n IH] using lt_wf_ind. intros v ->.
  destruct v; auto. apply Hobj. intros k x Hk.
  apply (IH (vsize x)); [by eapply vsize_lookup|done].
Qed.

Lemma mergeInto_obj source objValue :
  mergeInto (VObj source) objValue = VObj (baseMerge (plain objValue) source).
Proof. done. Qed.

(** A property of the merged object: from the source, merged into what the
    object had, if the source has it; what the object had otherwise. *)
Lemma lookup_baseMerge object source k :
  baseMerge object source !! k =
    match source !! k with
    | Some x => Some (mergeInto x (object !! k))
    | None => object !! k
    end.
Proof.
  unfold baseMerge. revert k.
  apply (map_fold_weak_ind (λ r (m : gmap string value), ∀ k,
    r !! k = match m !! k with
             | Some x => Some (mergeInto x (object !! k))
             | None => object !! k
             end)).
  - intros k. by rewrite lookup_empty.
  - intros i x m r Hi IH k. destruct (decide (i = k)) as [->|Hne].
    + rewrite !lookup_insert_eq. by rewrite IH, Hi.
    + rewrite !lookup_insert_ne by done. apply IH.
Qed.

Lemma baseMerge_empty_r object : baseMerge object ∅ = object.
Proof. apply map_eq. intros k. by rewrite lookup_baseMerge, lookup_empty. Qed.

(** Merging a value into nothing, or into a primitive, gives the value. *)
Lemma mergeInto_not_obj srcValue objValue :
  plain objValue = ∅ → mergeInto srcValue objValue = srcValue.
Proof.
  revert objValue. induction srcValue as [| | | |source IH] using value_nested_ind;
    intros objValue Hplain; try done.
  rewrite mergeInto_obj, Hplain. f_equal. apply map_eq. intros k.
  rewrite lookup_baseMerge, lookup_empty.
  destruct (source !! k) as [x|] eqn:Hk; [|done].
  f_equal. by apply (IH k x Hk).
Qed.

Lemma mergeInto_None srcValue : mergeInto srcValue None = srcValue.
Proof. by apply mergeInto_not_obj. Qed.

Lemma baseMerge_empty_l source : baseMerge ∅ source = source.
Proof.
  apply map_eq. intros k. rewrite lookup_baseMerge, lookup_empty.
  destruct (source !! k); [|done]. by rewrite mergeInto_None.
Qed.

(** ** Single-path trees *)

Lemma unflatten_cons k rest v : unflatten (k :: rest) v = Return (nested k rest v).
Proof.
  revert k. induction rest as [|k' rest IH]; intros k; [done|].
  change (unflatten (k :: k' :: rest) v)
    with (let* inner := unflatten (k' :: rest) v in Return (VObj {[k := inner]})).
  by rewrite IH.
Qed.

Lemma unflatten_Return keys v t :
  unflatten keys v = Return t → ∃ k rest, keys = k :: rest ∧ t = nested k rest v.
Proof.
  destruct keys as [|k rest]; [done|]. rewrite unflatten_cons.
  intros [= <-]. eauto.
Qed.

Lemma nested_unfold k rest v :
  nested k rest v =
    VObj {[k := match rest with [] => v | k' :: rest' => nested k' rest' v end]}.
Proof. by destruct rest. Qed.

Lemma get_path_nested k rest v : get_path (nested k rest v) (k :: rest) = Some v.
Proof.
  revert k. induction rest as [|k' rest IH]; intros k; rewrite nested_unfold; simpl;
    rewrite lookup_singleton_eq; simpl; [done|apply IH].
Qed.

Lemma get_path_primitive t q :
  (∀ o, t ≠ VObj o) → q ≠ [] → get_path t q = None.
Proof. intros Ht Hq. destruct q; [done|]. destruct t; try done. by destruct (Ht o). Qed.

Lemma get_path_empty q : q ≠ [] → get_path (VObj ∅) q = None.
Proof. intros Hq. destruct q; [done|]. simpl. by rewrite lookup_empty. Qed.

(** Reading below a property of the object merged into. *)
Lemma get_path_plain (objValue : option value) q :
  q ≠ [] → get_path (VObj (plain objValue)) q = objValue ≫= λ x, get_path x q.
Proof.
  intros Hq. destruct objValue as [[]|]; simpl; try done;
    by rewrite ?get_path_empty, ?(get_path_primitive _ q) by done.
Qed.

Lemma collide_sym p q : collide p q → collide q p.
Proof. unfold collide. tauto. Qed.

Lemma collide_nil_l q : collide [] q.
Proof. left. apply prefix_nil. Qed.

Lemma collide_nil_r p : collide p [].
Proof. right. apply prefix_nil. Qed.

Lemma collide_cons k p q : collide (k :: p) (k :: q) ↔ collide p q.
Proof.
  unfold collide. split.
  - intros [H|H]; [left|right]; by eapply prefix_cons_inv_2.
  - intros [H|H]; [left|right]; by apply prefix_cons.
Qed.

Lemma lookup_baseMerge_singleton object k x k' :
  baseMerge object {[k := x]} !! k' =
    if decide (k = k') then Some (mergeInto x (object !! k)) else object !! k'.
Proof.
  rewrite lookup_baseMerge. case_decide as Hk.
  - subst. by rewrite lookup_singleton_eq.
  - by rewrite lookup_singleton_ne.
Qed.

Lemma mergeInto_nested k rest v objValue :
  mergeInto (nested k rest v) objValue = merge (VObj (plain objValue)) (nested k rest v).
Proof. by rewrite nested_unfold. Qed.

(** Merging a single-path tree into an object leaves every path that does
    not collide with that path as it was. *)
Lemma merge_nested_frame object k rest v q :
  ¬ collide (k :: rest) q →
  get_path (merge (VObj object) (nested k rest v)) q = get_path (VObj object) q.
Proof.
  revert object k q. induction rest as [|k2 rest IH]; intros object k q Hq.
  - destruct q as [|k' q]; [by destruct Hq; apply collide_nil_r|].
    simpl. rewrite lookup_baseMerge_singleton. case_decide as Hk; [|done].
    subst. destruct Hq. apply collide_cons, collide_nil_l.
  - destruct q as [|k' q]; [by destruct Hq; apply collide_nil_r|].
    rewrite nested_unfold. simpl. rewrite lookup_baseMerge_singleton.
    case_decide as Hk; [|done]. subst k'.
    rewrite collide_cons in Hq.
    assert (q ≠ []) as Hne by (intros ->; apply Hq, collide_nil_r).
    simpl. rewrite mergeInto_nested, IH by done.
    by rewrite get_path_plain.
Qed.

(** At its own path the merge leaves the value, merged into what the object
    had there. *)
Lemma merge_nested_write object k rest v :
  get_path (merge (VObj object) (nested k rest v)) (k :: rest) =
    Some (mergeInto v (get_path (VObj object) (k :: rest))).
Proof.
  revert object k. induction rest as [|k2 rest IH]; intros object k.
  - simpl. rewrite lookup_baseMerge_singleton. case_decide; [|done].
    simpl. by destruct (object !! k).
  - rewrite nested_unfold.
    change (get_path (merge (VObj object) (VObj ?s)) (k :: ?p))
      with (baseMerge object s !! k ≫= λ x, get_path x p).
    rewrite lookup_baseMerge_singleton, decide_True by done.
    change (Some ?x ≫= ?f) with (f x). cbv beta.
    rewrite mergeInto_nested, IH, get_path_plain by done. done.
Qed.

Lemma get_path_nested_None k rest v q :
  ¬ collide (k :: rest) q → get_path (nested k rest v) q = None.
Proof.
  revert k q. induction rest as [|k2 rest IH]; intros k q Hq.
  - destruct q as [|k' q]; [by destruct Hq; apply collide_nil_r|].
    simpl. destruct (decide (k = k')) as [->|Hk].
    + destruct Hq. apply collide_cons, collide_nil_l.
    + by rewrite lookup_singleton_ne.
  - destruct q as [|k' q]; [by destruct Hq; apply collide_nil_r|].
    rewrite nested_unfold. simpl. destruct (decide (k = k')) as [->|Hk].
    + rewrite lookup_singleton_eq. simpl. apply IH. by rewrite <-collide_cons.
    + by rewrite lookup_singleton_ne.
Qed.

Lemma merge_nested_is_obj object k rest v :
  ∃ o, merge (VObj object) (nested k rest v) = VObj o.
Proof. rewrite nested_unfold. simpl. eauto. Qed.

(** ** Merging the expansions of a family of parameters *)

Lemma key_path_cons k : ∃ k1 rest, key_path k = k1 :: rest.
Proof.
  unfold key_path. destruct (split hyphen k) as [|k1 rest] eqn:Hk; [|by eauto].
  by destruct (split_nonempty hyphen k).
Qed.

Lemma unflatten_key_path k v : unflatten (key_path k) v = Return (expansion (k, v)).
Proof.
  unfold expansion. simpl. destruct (key_path_cons k) as (k1 & rest & ->).
  apply unflatten_cons.
Qed.

Lemma expansion_nested k v k1 rest :
  key_path k = k1 :: rest → expansion (k, v) = nested k1 rest v.
Proof. unfold expansion. simpl. by intros ->. Qed.

Lemma fold_merge_frame (l : props value) a q :
  Forall (λ kv, ¬ collide (key_path kv.1) q) l →
  ∃ a', fold_left merge (expansion <$> l) (VObj a) = VObj a' ∧
        get_path (VObj a') q = get_path (VObj a) q.
Proof.
  revert a. induction l as [|[k v] l IH]; intros a Hl; [by eauto|].
  inversion_clear Hl as [|?? Hk Hl']. simpl in Hk.
  rewrite fmap_cons. cbn [fold_left].
  destruct (key_path_cons k) as (k1 & rest & Hkp).
  rewrite (expansion_nested _ _ _ _ Hkp). rewrite Hkp in Hk.
  destruct (merge_nested_is_obj a k1 rest v) as [a1 Ha1].
  destruct (IH a1 Hl') as (a' & Hfold & Hget).
  exists a'. rewrite Ha1. split; [done|].
  by rewrite Hget, <-Ha1, merge_nested_frame.
Qed.

Lemma fold_merge_write (l : props value) a k v :
  independent (key_path <$> l.*1) →
  Forall (λ kv, get_path (VObj a) (key_path kv.1) = None) l →
  (k, v) ∈ l →
  get_path (fold_left merge (expansion <$> l) (VObj a)) (key_path k) = Some v.
Proof.
  revert a. induction l as [|[k0 v0] l IH]; intros a Hind Hnone Hin.
  { by apply elem_of_nil in Hin. }
  rewrite !fmap_cons in Hind. destruct Hind as [Hk0 Hind]. simpl in Hk0.
  inversion_clear Hnone as [|?? Hnone0 Hnone']. simpl in Hnone0.
  rewrite fmap_cons. cbn [fold_left].
  destruct (key_path_cons k0) as (k1 & rest & Hkp).
  rewrite (expansion_nested _ _ _ _ Hkp). rewrite Hkp in Hk0, Hnone0.
  destruct (merge_nested_is_obj a k1 rest v0) as [a1 Ha1]. rewrite Ha1.
  apply elem_of_cons in Hin as [[= -> ->]|Hin].
  - destruct (fold_merge_frame l a1 (key_path k0)) as (a' & -> & ->).
    + rewrite Hkp. apply Forall_forall. intros [k' v'] Hin'. simpl.
      rewrite Forall_forall in Hk0. intros Hc. apply (Hk0 (key_path k')).
      * apply list_elem_of_fmap. exists k'. split; [done|].
        apply list_elem_of_fmap. by exists (k', v').
      * by apply collide_sym.
    + rewrite Hkp, <-Ha1, merge_nested_write, Hnone0. by rewrite mergeInto_None.
  - apply IH; [done| |done].
    apply Forall_forall. intros [k' v'] Hin'. simpl.
    rewrite <-Ha1, merge_nested_frame.
    + rewrite Forall_forall in Hnone'. apply (Hnone' (k', v') Hin').
    + rewrite Forall_forall in Hk0. apply Hk0.
      apply list_elem_of_fmap. exists k'. split; [done|].
      apply list_elem_of_fmap. by exists (k', v').
Qed.

(** The reduction of the expansions of an independent family of parameters
    is a tree that holds every parameter's value at its key path. *)
Lemma reduce_merge_independent (l : props value) k v :
  independent (key_path <$> l.*1) →
  (k, v) ∈ l →
  ∃ t, reduce merge (expansion <$> l) = Some t ∧ get_path t (key_path k) = Some v.
Proof.
  intros Hind Hin. destruct l as [|[k0 v0] l]; [by apply elem_of_nil in Hin|].
  rewrite fmap_cons. cbn [reduce]. eexists. split; [done|].
  rewrite !fmap_cons in Hind. destruct Hind as [Hk0 Hind]. simpl in Hk0.
  destruct (key_path_cons k0) as (k1 & rest & Hkp).
  rewrite (expansion_nested _ _ _ _ Hkp). rewrite Hkp in Hk0.
  assert (∀ k' v', (k', v') ∈ l → ¬ collide (k1 :: rest) (key_path k')) as Hk0'.
  { intros k' v' Hin'. rewrite Forall_forall in Hk0. apply Hk0.
    apply list_elem_of_fmap. exists k'. split; [done|].
    apply list_elem_of_fmap. by exists (k', v'). }
  rewrite (nested_unfold k1 rest v0).
  apply elem_of_cons in Hin as [[= -> ->]|Hin].
  - destruct (fold_merge_frame l {[k1 := match rest with
                                          | [] => v0
                                          | k' :: rest' => nested k' rest' v0
                                          end]} (key_path k0)) as (a' & -> & ->).
    + rewrite Hkp. apply Forall_forall. intros [k' v'] Hin'. simpl.
      intros Hc%collide_sym. by eapply Hk0'.
    + rewrite Hkp, <-nested_unfold. apply get_path_nested.
  - apply fold_merge_write; [done| |done].
    apply Forall_forall. intros [k' v'] Hin'. simpl.
    rewrite <-nested_unfold. apply get_path_nested_None. by eapply Hk0'.
Qed.

(** ** Completions *)

Lemma mapM_Return {A B} (f : A → completion B) (g : A → B) (l : list A) :
  Forall (λ x, f x = Return (g x)) l → mapM f l = Return (g <$> l).
Proof.
  induction 1 as [|x l Hx Hl IH]; [done|]. simpl. by rewrite Hx, IH.
Qed.

Lemma mapM_Throw {A B} (f : A → completion B) (before after : list A) x e :
  Forall (λ y, ∃ r, f y = Return r) before →
  f x = Throw e →
  mapM f (before ++ x :: after)%list = Throw e.
Proof.
  intros Hbefore Hx. induction Hbefore as [|y l [r Hy] Hl IH]; simpl.
  - by rewrite Hx.
  - by rewrite Hy, IH.
Qed.

(** ** The properties an object has after [put], [pick] and [zipObject] *)

Section PropsElems.
Context {A : Type}.
Implicit Types (o r object source : props A) (k : string) (x : A).

Lemma put_keys o k x k' : k' ∈ (put o k x).*1 ↔ k' = k ∨ k' ∈ o.*1.
Proof.
  rewrite <-!get_is_Some, get_put. case_decide; subst.
  - split; [by left|by eauto].
  - split; [by right|]. by intros [?|?].
Qed.

Lemma elem_of_update o k x k' x' :
  (k', x') ∈ update k x o → (k', x') = (k, x) ∨ (k', x') ∈ o.
Proof.
  induction o as [|[k1 x1] o IH]; cbn [update]; [by right|].
  destruct (String.eqb k k1).
  - rewrite !elem_of_cons. tauto.
  - rewrite !elem_of_cons. intros [?|?]; [tauto|]. destruct IH; tauto.
Qed.

Lemma elem_of_insert_index n o k x k' x' :
  (k', x') ∈ insert_index n k x o → (k', x') = (k, x) ∨ (k', x') ∈ o.
Proof.
  induction o as [|[k1 x1] o IH]; cbn [insert_index].
  - rewrite list_elem_of_singleton. tauto.
  - destruct (array_index k1) as [m|]; [destruct (m <? n)%N|].
    + rewrite !elem_of_cons. intros [?|?]; [tauto|]. destruct IH; tauto.
    + rewrite !elem_of_cons. tauto.
    + rewrite !elem_of_cons. tauto.
Qed.

Lemma elem_of_put o k x k' x' :
  (k', x') ∈ put o k x → (k', x') = (k, x) ∨ (k', x') ∈ o.
Proof.
  unfold put. destruct (get o k); [apply elem_of_update|].
  destruct (array_index k); [apply elem_of_insert_index|].
  rewrite elem_of_app, list_elem_of_singleton. tauto.
Qed.

Lemma elem_of_fold_put (l : props A) o k x :
  (k, x) ∈ fold_left (λ result '(k, v), put result k v) l o →
  (k, x) ∈ l ∨ (k, x) ∈ o.
Proof.
  revert o. induction l as [|[k1 x1] l IH]; intros o; simpl; [by right|].
  intros [?|[?|?]%elem_of_put]%IH; rewrite elem_of_cons; tauto.
Qed.

Lemma elem_of_zipObject (pairs : props A) k x :
  (k, x) ∈ zipObject pairs → (k, x) ∈ pairs.
Proof. by intros [?|?%elem_of_nil]%elem_of_fold_put. Qed.

Lemma elem_of_pick_fold (predicate : A → string → bool) o r k x :
  (k, x) ∈ fold_left (λ result '(k, v), if predicate v k then put result k v else result) o r →
  ((k, x) ∈ o ∧ predicate x k = true) ∨ (k, x) ∈ r.
Proof.
  revert r. induction o as [|[k1 x1] o IH]; intros r; simpl; [by right|].
  intros [[? ?]|Hr]%IH; [left; split; [by right|done]|].
  destruct (predicate x1 k1) eqn:Hp; [|by right].
  apply elem_of_put in Hr as [[= -> ->]|?]; [left; split; [by left|done]|by right].
Qed.

Lemma elem_of_pick (predicate : A → string → bool) o k x :
  (k, x) ∈ pick predicate o → (k, x) ∈ o ∧ predicate x k = true.
Proof. by intros [?|?%elem_of_nil]%elem_of_pick_fold. Qed.

Lemma pick_keys_fold (predicate : A → string → bool) o r k :
  (k ∈ r.*1 ∨ ∃ x, (k, x) ∈ o ∧ predicate x k = true) →
  k ∈ (fold_left (λ result '(k, v), if predicate v k then put result k v else result) o r).*1.
Proof.
  revert r. induction o as [|[k1 x1] o IH]; intros r; simpl.
  - intros [?|(x & ?%elem_of_nil & _)]; done.
  - intros [Hr|(x & [[= -> ->]|Hin]%elem_of_cons & Hp)]; apply IH.
    + left. destruct (predicate x1 k1); [|done]. apply put_keys. by right.
    + left. rewrite Hp. apply put_keys. by left.
    + right. eauto.
Qed.

Lemma pick_keys (predicate : A → string → bool) o k x :
  (k, x) ∈ o → predicate x k = true → k ∈ (pick predicate o).*1.
Proof. intros. apply pick_keys_fold. right. eauto. Qed.

Lemma update_keys o k x : (update k x o).*1 = o.*1.
Proof.
  induction o as [|[k1 x1] o IH]; cbn [update]; [done|].
  destruct (String.eqb_spec k k1) as [->|]; [done|].
  by rewrite !fmap_cons, IH.
Qed.

Lemma insert_index_keys n o k x : (insert_index n k x o).*1 ≡ₚ k :: o.*1.
Proof.
  induction o as [|[k1 x1] o IH]; cbn [insert_index]; [done|].
  destruct (array_index k1) as [m|]; [destruct (m <? n)%N|]; try done.
  rewrite !fmap_cons, IH. simpl. apply Permutation_swap.
Qed.

(** Property names stay distinct. *)
Lemma NoDup_put o k x : NoDup o.*1 → NoDup (put o k x).*1.
Proof.
  intros Ho. unfold put. destruct (get o k) eqn:Hk.
  - by rewrite update_keys.
  - apply get_None in Hk. destruct (array_index k).
    + rewrite insert_index_keys. by constructor.
    + rewrite fmap_app. apply NoDup_app. split_and!; [done| |apply NoDup_singleton].
      intros k' Hk' ->%list_elem_of_singleton. done.
Qed.

Lemma NoDup_fold_put (l : props A) o :
  NoDup o.*1 → NoDup (fold_left (λ result '(k, v), put result k v) l o).*1.
Proof.
  revert o. induction l as [|[k1 x1] l IH]; intros o Ho; simpl; [done|].
  by apply IH, NoDup_put.
Qed.

Lemma elem_of_get o k x : NoDup o.*1 → (k, x) ∈ o → get o k = Some x.
Proof.
  induction o as [|[k1 x1] o IH]; [by intros _ ?%elem_of_nil|].
  rewrite fmap_cons, NoDup_cons, get_cons. simpl. intros [Hk1 Ho].
  intros [[= -> ->]|Hin]%elem_of_cons; [by rewrite decide_True|].
  case_decide as Hk; [|by apply IH]. subst. destruct Hk1.
  apply list_elem_of_fmap. by exists (k1, x).
Qed.

Lemma get_reverse o k : NoDup o.*1 → get (reverse o) k = get o k.
Proof.
  intros Ho. destruct (get o k) as [x|] eqn:Hk.
  - apply elem_of_get; [by rewrite fmap_reverse, reverse_Permutation|].
    by apply elem_of_reverse, get_elem_of.
  - by apply get_reverse_None.
Qed.
End PropsElems.

(** ** Environment variables *)

Lemma test_exec1 p k : test p k = true → ∃ group, exec1 p k = Some group.
Proof. unfold test. intros [group ?]%bool_decide_eq_true. by exists group. Qed.

Lemma envPattern_Return environment p :
  envPattern environment p = Return (pattern_object p environment).
Proof.
  unfold envPattern, map_props, pattern_object.
  rewrite (mapM_Return _ (derived_pair p)).
  - reflexivity.
  - apply Forall_forall. intros [k v] [_ Hk]%elem_of_pick.
    destruct (test_exec1 _ _ Hk) as [group Hgroup].
    unfold derived_pair, derived_key. simpl. by rewrite Hgroup.
Qed.

Lemma envParams_Return environment :
  envParams environment =
    Return (Some (baseAssign (pattern_object npm_package_config environment)
                             (pattern_object ghost environment))).
Proof. unfold envParams. simpl. by rewrite !envPattern_Return. Qed.

Lemma NoDup_zipObject {A} (pairs : props A) : NoDup (zipObject pairs).*1.
Proof. apply NoDup_fold_put. constructor. Qed.

(** A variable the expression matches gives its derived name to the
    object, and every property of the object comes from such a variable. *)
Lemma pattern_object_is_Some p environment name v :
  (name, v) ∈ environment → test p name = true →
  is_Some (get (pattern_object p environment) (derived_key p name)).
Proof.
  intros Hin Htest. unfold pattern_object.
  rewrite get_zipObject. apply get_reverse_is_Some, get_is_Some.
  assert (name ∈ (pick (λ _ k, test p k) environment).*1) as Hname
    by by eapply pick_keys.
  apply list_elem_of_fmap in Hname as ([name' v'] & -> & Hin').
  apply list_elem_of_fmap. exists (derived_pair p (name', v')). split; [done|].
  by apply list_elem_of_fmap_2.
Qed.

Lemma pattern_object_Some p environment k x :
  get (pattern_object p environment) k = Some x →
  ∃ name v, (name, v) ∈ environment ∧ test p name = true ∧
            derived_key p name = k ∧ x = VStr v.
Proof.
  intros Hk%get_elem_of%elem_of_zipObject.
  apply list_elem_of_fmap in Hk as ([name v] & [= -> ->] & [Hin Htest]%elem_of_pick).
  by exists name, v.
Qed.

Lemma get_envParams environment k :
  ∃ combined, envParams environment = Return (Some combined) ∧
    get combined k =
      match get (pattern_object ghost environment) k with
      | Some x => Some x
      | None => get (pattern_object npm_package_config environment) k
      end.
Proof.
  eexists. split; [apply envParams_Return|].
  rewrite get_baseAssign, get_reverse; [done|apply NoDup_zipObject].
Qed.



(** C5: when a variable matching the npm_package_config_ expression and a
    variable matching the ghost_ expression derive the same key, the
    combined environment mapping holds at that key what the object of the
    ghost_ expression holds, which is the value of a ghost_ variable that
    derives the key; it is the value of the given one when no other ghost_
    variable derives the key with another value. *)
Theorem ghost_overrides_npm_package_config environment name_a va name_b vb k :
  (name_a, va) ∈ environment → test npm_package_config name_a = true →
  derived_key npm_package_config name_a = k →
  (name_b, vb) ∈ environment → test ghost name_b = true →
  derived_key ghost name_b = k →
  ∃ combined, envParams environment = Return (Some combined) ∧
    get combined k = get (pattern_object ghost environment) k ∧
    (∃ name v, (name, v) ∈ environment ∧ test ghost name = true ∧
               derived_key ghost name = k ∧ get combined k = Some (VStr v)) ∧
    ((∀ name v, (name, v) ∈ environment → test ghost name = true →
                derived_key ghost name = k → v = vb) →
     get combined k = Some (VStr vb)).
Proof.
  intros _ _ _ Hb Hbtest Hbk.
  destruct (get_envParams environment k) as (combined & Hcombined & Hget).
  exists combined. split; [done|].
  destruct (pattern_object_is_Some ghost environment name_b vb Hb Hbtest) as [x Hx].
  rewrite Hbk in Hx. rewrite Hx in Hget.
  destruct (pattern_object_Some _ _ _ _ Hx) as (name & v & Hin & Htest & Hk & ->).
  split_and!; [by rewrite Hx| |].
  - by exists name, v.
  - intros Honly. by rewrite Hget, (Honly name v).
Qed.

Lemma ghost_overrides_npm_package_config_witness :
  ∃ combined,
    envParams [("npm_package_config_database_connection_password", "secret1");
               ("GHOST_database-connection-password", "secret2")]
      = Return (Some combined) ∧
    get combined "database-connection-password" = Some (VStr "secret2").
Proof.
  destruct (ghost_overrides_npm_package_config
    [("npm_package_config_database_connection_password", "secret1");
     ("GHOST_database-connection-password", "secret2")]
    "npm_package_config_database_connection_password" "secret1"
    "GHOST_database-connection-password" "secret2"
    "database-connection-password") as (combined & Hcombined & _ & _ & Hvb).
  - by left.
  - by vm_compute.
  - by vm_compute.
  - right; by left.
  - by vm_compute.
  - by vm_compute.
  - exists combined. split; [done|]. apply Hvb.
    intros name v [[= -> ->]|[[= -> ->]|?%elem_of_nil]%elem_of_cons]%elem_of_cons;
      [by vm_compute|done|done].
Defined.







(** Underscores of the rest of the name become hyphens: the key derived
    from GHOST_a_b is a-b. *)
Lemma ghost_key_not_verbatim :
  test ghost "GHOST_a_b" = true ∧
  derived_key ghost "GHOST_a_b" = "a-b" ∧
  ¬ (∀ pre suffix, same_ignoring_case pre "ghost_" = true →
       derived_key ghost (pre +:+ suffix) = suffix).
Proof.
  split_and!; [done|done|].
  intros H. by specialize (H "GHOST_" "a_b" eq_refl).
Qed.

Lemma ghost_key_translated :
  envParams [("GHOST_a_b", "1")] = Return (Some [("a-b", VStr "1")]).
Proof. reflexivity. Qed.

(** ** The combined parameters and their expansion *)

Lemma lodash_map_expand flat :
  isArrayLike flat = None → lodash_map expand flat = Return (expansion <$> flat).
Proof.
  intros Hlen. unfold lodash_map. rewrite Hlen.
  apply mapM_Return, Forall_forall. intros [k v] _. apply unflatten_key_path.
Qed.

Lemma lodash_map_expand_array_like flat length :
  isArrayLike flat = Some length →
  lodash_map expand flat =
    if 2 ^ 32 - 1 <? length then Throw RangeError
    else if length =? 0 then Return [] else Throw TypeError.
Proof.
  intros Hlen. unfold lodash_map. rewrite Hlen.
  destruct (2 ^ 32 - 1 <? length); [done|].
  destruct (Z.eqb_spec length 0) as [->|Hne]; [done|].
  assert (0 <= length) as Hpos.
  { unfold isArrayLike in Hlen. destruct (get flat "length") as [[]|]; try done.
    simpl in Hlen. destruct (Z.leb_spec 0 n); [|done].
    destruct (n <=? MAX_SAFE_INTEGER); simpl in Hlen; congruence. }
  unfold seqZ. replace (Z.to_nat length) with (S (Z.to_nat (length - 1))) by lia.
  done.
Qed.

Lemma getConfigOverrides_params proc flat :
  params proc = Return flat →
  isArrayLike flat = None →
  getConfigOverrides proc = Return (reduce merge (expansion <$> flat)).
Proof.
  intros Hparams Hlen. unfold getConfigOverrides.
  by rewrite Hparams; simpl; rewrite lodash_map_expand.
Qed.

(** When no two key paths of the combined parameters collide, the tree
    returned holds the value of every parameter at its key path. *)
Lemma getConfigOverrides_independent proc flat k v :
  params proc = Return flat →
  isArrayLike flat = None →
  independent (key_path <$> flat.*1) →
  get flat k = Some v →
  ∃ t, getConfigOverrides proc = Return (Some t) ∧ get_path t (key_path k) = Some v.
Proof.
  intros Hparams Hlen Hind Hk%get_elem_of.
  destruct (reduce_merge_independent flat k v Hind Hk) as (t & Ht & Hget).
  exists t. by rewrite (getConfigOverrides_params _ _ Hparams Hlen), Ht.
Qed.

Lemma params_unfold proc :
  params proc =
    let* jsonjsParams := jsonjsParams proc in
    Return (assign [] [Some (baseAssign (pattern_object npm_package_config (env proc))
                                        (pattern_object ghost (env proc)));
                       jsonjsParams; Some (args_options proc)]).
Proof. unfold params. by rewrite envParams_Return. Qed.

Lemma params_inv proc flat :
  params proc = Return flat →
  ∃ jsonjs others,
    jsonjsParams proc = Return jsonjs ∧
    others = assign [] [Some (baseAssign (pattern_object npm_package_config (env proc))
                                         (pattern_object ghost (env proc))); jsonjs] ∧
    flat = baseAssign others (args_options proc).
Proof.
  rewrite params_unfold. destruct (jsonjsParams proc) as [jsonjs|]; [|done].
  intros [= <-]. eexists jsonjs, _. split_and!; reflexivity.
Qed.

(** A flag is in the combined parameters with its own value. *)
Lemma get_params_option proc flat k v :
  params proc = Return flat →
  NoDup (args_options proc).*1 →
  get (args_options proc) k = Some v →
  get flat k = Some v.
Proof.
  intros (jsonjs & others & _ & _ & ->)%params_inv Hnodup Hk.
  by rewrite get_baseAssign, get_reverse, Hk.
Qed.

(** A property of the file-derived object is in the combined parameters
    with its own value unless a flag has the same name. *)
Lemma get_params_jsonjs proc flat jsonjs k v :
  params proc = Return flat →
  jsonjsParams proc = Return (Some jsonjs) →
  NoDup jsonjs.*1 →
  get jsonjs k = Some v →
  get (args_options proc) k = None →
  get flat k = Some v.
Proof.
  intros (jsonjs' & others & Hj & -> & ->)%params_inv Hj' Hnodup Hk Hopt.
  rewrite Hj in Hj'. injection Hj' as ->.
  rewrite get_baseAssign_None by done. simpl.
  by rewrite get_baseAssign, get_reverse, Hk.
Qed.

(** In the combined parameters a flag has its own value, whatever the
    environment variables and the files give for the same key; when the key
    paths of the combined parameters do not collide (and the input stays
    clear of wrappers and of the name __proto__), the tree returned holds
    the flag's value at the key path.  With
    npm_package_config_database_connection_password=secret1,
    GHOST_database-connection-password=secret2 and the flag
    --database-connection-password=secret3 alone the tree returned has
    secret3 at database, connection, password. *)
Theorem flag_overrides_environment_and_files proc flat k v :
  NoDup (args_options proc).*1 →
  get (args_options proc) k = Some v →
  params proc = Return flat →
  get flat k = Some v ∧
  (unwrapped (env proc) → Forall ordinary_param flat →
   isArrayLike flat = None → independent (key_path <$> flat.*1) →
   ∃ t, getConfigOverrides proc = Return (Some t) ∧ get_path t (key_path k) = Some v) ∧
  (∀ c r e,
     getConfigOverrides
       {| env := [("npm_package_config_database_connection_password", "secret1");
                  ("GHOST_database-connection-password", "secret2")];
          args_ := [];
          args_options := [("database-connection-password", VStr "secret3")];
          cwd := c; require := r; exports := e |}
     = Return (Some (nested "database" ["connection"; "password"] (VStr "secret3")))) ∧
  get_path (nested "database" ["connection"; "password"] (VStr "secret3"))
           ["database"; "connection"; "password"] = Some (VStr "secret3").
Proof.
  intros Hnodup Hk Hparams.
  pose proof (get_params_option _ _ _ _ Hparams Hnodup Hk) as Hget.
  split_and!; [done| | |].
  - intros _ _ Hlen Hind. by eapply getConfigOverrides_independent.
  - intros c r e. reflexivity.
  - apply get_path_nested.
Qed.

Lemma flag_overrides_environment_and_files_witness :
  ∃ t,
    getConfigOverrides
      {| env := [("npm_package_config_port", "1"); ("ghost_server_port", "2")];
         args_ := [];
         args_options := [("server-port", VStr "3"); ("server-host", VStr "h")];
         cwd := "/ghost"; require := λ p, Throw (LoadError p); exports := λ _, [] |}
      = Return (Some t) ∧
    get_path t ["server"; "port"] = Some (VStr "3").
Proof.
  destruct (flag_overrides_environment_and_files
    {| env := [("npm_package_config_port", "1"); ("ghost_server_port", "2")];
       args_ := [];
       args_options := [("server-port", VStr "3"); ("server-host", VStr "h")];
       cwd := "/ghost"; require := λ p, Throw (LoadError p); exports := λ _, [] |}
    [("port", VStr "1"); ("server-port", VStr "3"); ("server-host", VStr "h")]
    "server-port" (VStr "3")) as (_ & Htree & _).
  - by_evaluation.
  - reflexivity.
  - reflexivity.
  - apply Htree; [by_evaluation|by_evaluation|reflexivity|by_evaluation].
Defined.

(** C1 fails on the code when key paths collide: with the two variables and
    the flag of the example, and a file that holds the password nested under
    database, the tree returned has the file's value.  The variable puts
    the key database-connection-password first in the combined parameters,
    the flag only replaces its value there, and the file's key database is
    enumerated, and merged, after it.  Without the two variables the flag's
    key comes after the file's and the flag's value is returned. *)
Theorem flag_loses_to_nested_file_value :
  params flag_and_nested_file =
    Return [("database-connection-password", VStr "secret3");
            ("database", VObj {["connection" := VObj {["password" := VStr "fromfile"]}]})] ∧
  getConfigOverrides flag_and_nested_file =
    Return (Some (VObj {["database" :=
              VObj {["connection" := VObj {["password" := VStr "fromfile"]}]}]})) ∧
  params flag_and_nested_file_no_env =
    Return [("database", VObj {["connection" := VObj {["password" := VStr "fromfile"]}]});
            ("database-connection-password", VStr "secret3")] ∧
  getConfigOverrides flag_and_nested_file_no_env =
    Return (Some (VObj {["database" :=
              VObj {["connection" := VObj {["password" := VStr "secret3"]}]}]})).
Proof. split_and!; by vm_compute. Qed.

(** ** Algebra of merging single-path trees *)

Lemma plain_nested k rest v : VObj (plain (Some (nested k rest v))) = nested k rest v.
Proof. by rewrite nested_unfold. Qed.

Lemma merge_nested_nested k1 r1 v1 k2 r2 v2 :
  ∃ o, merge (nested k1 r1 v1) (nested k2 r2 v2) = VObj o.
Proof. rewrite (nested_unfold k1). apply merge_nested_is_obj. Qed.


Ltac singleton_cases :=
  rewrite ?lookup_singleton; repeat case_decide; simplify_eq;
  rewrite ?mergeInto_None; try done.

Lemma merge_nested_comm k1 r1 v1 k2 r2 v2 :
  ¬ collide (k1 :: r1) (k2 :: r2) →
  merge (nested k1 r1 v1) (nested k2 r2 v2) = merge (nested k2 r2 v2) (nested k1 r1 v1).
Proof.
  revert k1 k2 r2. induction r1 as [|a r1 IH]; intros k1 k2 r2 Hc.
  all: rewrite (nested_unfold k1), (nested_unfold k2); cbn [merge]; f_equal.
  all: apply map_eq; intros k; rewrite !lookup_baseMerge_singleton.
  all: destruct (decide (k1 = k2)) as [->|Hne].
  - destruct Hc. apply collide_cons, collide_nil_l.
  - singleton_cases.
  - rewrite collide_cons in Hc.
    destruct r2 as [|b r2]; [by destruct Hc; apply collide_nil_r|].
    rewrite !lookup_singleton_eq. case_decide; [|by rewrite !lookup_singleton_ne].
    rewrite !mergeInto_nested, !plain_nested. f_equal. by apply IH.
  - singleton_cases.
Qed.

Lemma merge_nested_assoc t1 k2 r2 v2 k3 r3 v3 :
  ¬ collide (k2 :: r2) (k3 :: r3) →
  merge (merge (VObj t1) (nested k2 r2 v2)) (nested k3 r3 v3) =
  merge (VObj t1) (merge (nested k2 r2 v2) (nested k3 r3 v3)).
Proof.
  revert t1 k2 k3 r3. induction r2 as [|a r2 IH]; intros t1 k2 k3 r3 Hc.
  all: rewrite (nested_unfold k2), (nested_unfold k3); cbn [merge]; f_equal.
  all: apply map_eq; intros k.
  all: rewrite (lookup_baseMerge t1), !lookup_baseMerge_singleton.
  all: destruct (decide (k2 = k3)) as [->|Hne].
  - destruct Hc. apply collide_cons, collide_nil_l.
  - singleton_cases.
  - rewrite collide_cons in Hc.
    destruct r3 as [|b r3]; [by destruct Hc; apply collide_nil_r|].
    rewrite lookup_singleton_eq. case_decide; [|by rewrite lookup_singleton_ne].
    subst k. f_equal.
    destruct (merge_nested_is_obj (plain (t1 !! k3)) a r2 v2) as [o1 Ho1].
    destruct (merge_nested_nested a r2 v2 b r3 v3) as [o2 Ho2].
    rewrite (mergeInto_nested a), Ho1, (mergeInto_nested b r3 v3 (Some (VObj o1))).
    cbn [plain]. rewrite <-Ho1.
    rewrite (mergeInto_nested b r3 v3 (Some (nested a r2 v2))), plain_nested, Ho2.
    rewrite mergeInto_obj.
    change (VObj (baseMerge ?x ?y)) with (merge (VObj x) (VObj y)).
    rewrite <-Ho2. by apply IH.
  - singleton_cases.
Qed.

(** C2: expanding a non-empty key path with a value and reading the tree
    at that path gives the value back; the key path may be given as its
    segments joined by hyphens, or as any key string. *)
Theorem unflatten_round_trip (keys : list string) (v : value) :
  keys ≠ [] →
  (∃ t, unflatten keys v = Return t ∧ get_path t keys = Some v) ∧
  (Forall (λ seg, occurs hyphen seg = false) keys →
   ∃ t, unflatten (split hyphen (join hyphen keys)) v = Return t ∧
        get_path t keys = Some v) ∧
  (∀ k, ∃ t, unflatten (split hyphen k) v = Return t ∧
             get_path t (split hyphen k) = Some v).
Proof.
  intros Hne.
  assert (∀ keys', keys' ≠ [] →
    ∃ t, unflatten keys' v = Return t ∧ get_path t keys' = Some v) as Hgen.
  { intros [|k rest] ?; [done|]. exists (nested k rest v).
    split; [apply unflatten_cons|apply get_path_nested]. }
  split_and!.
  - by apply Hgen.
  - intros Hseg. rewrite split_join by done. by apply Hgen.
  - intros k. apply Hgen, split_nonempty.
Qed.

Lemma unflatten_round_trip_witness :
  ∃ t, unflatten ["life"; "universe"; "everything"] (VNum 42) = Return t ∧
       get_path t ["life"; "universe"; "everything"] = Some (VNum 42).
Proof.
  destruct (unflatten_round_trip ["life"; "universe"; "everything"] (VNum 42))
    as [Hpath _]; [discriminate|exact Hpath].
Defined.

(** C9: splitting a key on hyphens gives at least one segment, so the
    expansion of a parameter applies unflatten to a non-empty list and the
    call returns a tree: the branch of the empty list is not taken. *)
Theorem key_path_never_empty (k : string) (v : value) :
  (1 ≤ List.length (split hyphen k))%nat ∧
  ∃ t, unflatten (split hyphen k) v = Return t ∧ expand (Own k v) = Return t.
Proof.
  split.
  - pose proof (split_nonempty hyphen k). destruct (split hyphen k); simpl; [done|lia].
  - exists (expansion (k, v)). split; apply unflatten_key_path.
Qed.

(** Merging expansions whose key paths do not collide, for parameters with
    ordinary property names (no segment and no nested property is named
    __proto__, see [ordinary_param]): the merge of two such expansions holds
    both values at their paths and is commutative; it is associative with the
    expansion of a third parameter whose path does not collide with the
    second; and merging an expansion into an object with ordinary property
    names leaves every path that does not collide with its path as it was. *)
Theorem deep_merge_preserves_siblings k1 v1 k2 v2 t1 t2 :
  ordinary_param (k1, v1) →
  ordinary_param (k2, v2) →
  unflatten (split hyphen k1) v1 = Return t1 →
  unflatten (split hyphen k2) v2 = Return t2 →
  ¬ collide (split hyphen k1) (split hyphen k2) →
  get_path (merge t1 t2) (split hyphen k1) = Some v1 ∧
  get_path (merge t1 t2) (split hyphen k2) = Some v2 ∧
  merge t1 t2 = merge t2 t1 ∧
  (∀ object k3 v3 t3,
     ordinary (VObj object) = true →
     ordinary_param (k3, v3) →
     unflatten (split hyphen k3) v3 = Return t3 →
     ¬ collide (split hyphen k2) (split hyphen k3) →
     merge (merge (VObj object) t2) t3 = merge (VObj object) (merge t2 t3)) ∧
  (∀ object q,
     ordinary (VObj object) = true →
     "__proto__" ∉ q →
     ¬ collide (split hyphen k2) q →
     get_path (merge (VObj object) t2) q = get_path (VObj object) q).
Proof.
  intros _ _.
  intros (a1 & r1 & Hk1 & ->)%unflatten_Return (a2 & r2 & Hk2 & ->)%unflatten_Return.
  rewrite Hk1, Hk2. intros Hc. split_and!.
  - rewrite (nested_unfold a1) at 1.
    rewrite merge_nested_frame by (by intros ?%collide_sym).
    rewrite <-nested_unfold. apply get_path_nested.
  - rewrite (nested_unfold a1) at 1.
    rewrite merge_nested_write, <-nested_unfold.
    by rewrite get_path_nested_None, mergeInto_None.
  - by apply merge_nested_comm.
  - intros object k3 v3 t3 _ _ (a3 & r3 & Hk3 & ->)%unflatten_Return.
    rewrite Hk3. apply merge_nested_assoc.
  - intros object q _ _. apply merge_nested_frame.
Qed.

Lemma deep_merge_preserves_siblings_witness :
  ∃ t, merge (nested "a" ["b"] (VNum 1)) (nested "a" ["c"] (VNum 2)) = t ∧
       get_path t ["a"; "b"] = Some (VNum 1) ∧
       get_path t ["a"; "c"] = Some (VNum 2).
Proof.
  destruct (deep_merge_preserves_siblings "a-b" (VNum 1) "a-c" (VNum 2)
              (nested "a" ["b"] (VNum 1)) (nested "a" ["c"] (VNum 2)))
    as (Hb & Hc & _);
    [by_evaluation|by_evaluation|reflexivity|reflexivity|by_evaluation|].
  eexists. split; [reflexivity|]. split; [exact Hb|exact Hc].
Defined.

Lemma mapM_total {A B} (f : A → completion B) (l : list A) :
  Forall (λ x, ∃ y, f x = Return y) l → ∃ ys, mapM f l = Return ys.
Proof.
  induction 1 as [|x l [y Hx] Hl [ys IH]]; [by eexists|].
  simpl. rewrite Hx, IH. by eexists.
Qed.

(** Only a positional argument that cannot be loaded, or a numeric length
    among the parameters, makes the call throw. *)
Lemma getConfigOverrides_returns proc :
  Forall (λ arg, ∃ r, requireArg proc arg = Return r) (args_ proc) →
  ∃ flat, params proc = Return flat ∧
    (isArrayLike flat = None → ∃ result, getConfigOverrides proc = Return result).
Proof.
  intros [modules Hmodules]%mapM_total.
  assert (∃ jsonjs, jsonjsParams proc = Return jsonjs) as [jsonjs Hjson].
  { unfold jsonjsParams. rewrite Hmodules. simpl.
    destruct (assign_apply_refs (exports proc) modules). by eexists. }
  eexists. split; [by rewrite params_unfold, Hjson|].
  intros Hlen. eexists. apply getConfigOverrides_params; [|done].
  by rewrite params_unfold, Hjson.
Qed.

(** ** Absent sources *)

Lemma pick_nil {A} (predicate : A → string → bool) (o : props A) :
  Forall (λ kv, predicate kv.2 kv.1 = false) o → pick predicate o = [].
Proof.
  unfold pick. induction 1 as [|[k v] o Hkv Ho IH]; [done|].
  simpl in *. by rewrite Hkv.
Qed.

Lemma pattern_object_nil p environment :
  Forall (λ kv, test p kv.1 = false) environment → pattern_object p environment = [].
Proof. intros Hall. unfold pattern_object. by rewrite pick_nil. Qed.

(** C4: with no variable matching either expression, no flag and no
    positional argument, every source contributes nothing and the call does
    not throw; what it returns is undefined, not an empty tree. *)
Theorem no_sources_returns_undefined proc :
  Forall (λ kv, test npm_package_config kv.1 = false ∧ test ghost kv.1 = false) (env proc) →
  args_ proc = [] →
  args_options proc = [] →
  envParams (env proc) = Return (Some []) ∧
  jsonjsParams proc = Return None ∧
  params proc = Return [] ∧
  getConfigOverrides proc = Return None.
Proof.
  intros Henv Hargs Hopts.
  assert (envParams (env proc) = Return (Some [])) as Henvp.
  { rewrite envParams_Return, !pattern_object_nil; [done| |].
    - eapply Forall_impl; [done|]. by intros ? [_ ?].
    - eapply Forall_impl; [done|]. by intros ? [? _]. }
  assert (jsonjsParams proc = Return None) as Hjson.
  { unfold jsonjsParams. by rewrite Hargs. }
  assert (params proc = Return []) as Hparams.
  { unfold params. by rewrite Henvp, Hjson, Hopts. }
  split_and!; try done.
  unfold getConfigOverrides. by rewrite Hparams.
Qed.

Lemma no_sources_returns_undefined_witness :
  getConfigOverrides
    {| env := [("HOME", "/ghost"); ("PATH", "/usr/bin")];
       args_ := []; args_options := [];
       cwd := "/ghost"; require := λ p, Throw (LoadError p); exports := λ _, [] |}
  = Return None.
Proof.
  apply (no_sources_returns_undefined
    {| env := [("HOME", "/ghost"); ("PATH", "/usr/bin")];
       args_ := []; args_options := [];
       cwd := "/ghost"; require := λ p, Throw (LoadError p); exports := λ _, [] |});
    [by_evaluation|reflexivity|reflexivity].
Defined.

(** ** Files *)

Lemma first_Throw {A B} (f : A → completion B) (l : list A) :
  Exists (λ x, ∃ e, f x = Throw e) l →
  ∃ before x after e,
    l = (before ++ x :: after)%list ∧
    Forall (λ y, ∃ r, f y = Return r) before ∧
    f x = Throw e.
Proof.
  induction l as [|y l IH]; [by intros ?%Exists_nil|].
  intros Hex. destruct (f y) as [r|e] eqn:Hy.
  - apply Exists_cons in Hex as [[e He]|Hex]; [congruence|].
    destruct (IH Hex) as (before & x & after & e & -> & Hbefore & Hx).
    exists (y :: before), x, after, e. split_and!; [done| |done].
    constructor; [by exists r|done].
  - exists [], y, l, e. split_and!; [done|constructor|done].
Qed.

(** C8: when a positional argument cannot be loaded, the call throws the
    exception of the first such argument and returns nothing at all. *)
Theorem unloadable_file_is_fatal proc :
  Exists (λ arg, ∃ e, requireArg proc arg = Throw e) (args_ proc) →
  ∃ arg e,
    arg ∈ args_ proc ∧
    requireArg proc arg = Throw e ∧
    jsonjsParams proc = Throw e ∧
    getConfigOverrides proc = Throw e ∧
    ∀ result, getConfigOverrides proc ≠ Return result.
Proof.
  intros (before & arg & after & e & Hargs & Hbefore & Harg)%first_Throw.
  assert (jsonjsParams proc = Throw e) as Hjson.
  { unfold jsonjsParams. by rewrite Hargs, (mapM_Throw _ _ _ _ e Hbefore Harg). }
  assert (getConfigOverrides proc = Throw e) as Hthrow.
  { unfold getConfigOverrides. by rewrite params_unfold, Hjson. }
  exists arg, e. split_and!; try done.
  - rewrite Hargs. apply elem_of_app. right. by left.
  - intros result. by rewrite Hthrow.
Qed.

Lemma unloadable_file_is_fatal_witness :
  getConfigOverrides
    {| env := [("ghost_server_port", "2368")];
       args_ := [VStr "a.json"; VStr "missing.json"];
       args_options := [("url", VStr "http://localhost")];
       cwd := "/ghost";
       require := λ path, if String.eqb path "/ghost/a.json" then Return 0%nat
                          else Throw (LoadError path);
       exports := λ _, [("server-host", VStr "0.0.0.0")] |}
  = Throw (LoadError "/ghost/missing.json").
Proof.
  destruct (unloadable_file_is_fatal
    {| env := [("ghost_server_port", "2368")];
       args_ := [VStr "a.json"; VStr "missing.json"];
       args_options := [("url", VStr "http://localhost")];
       cwd := "/ghost";
       require := λ path, if String.eqb path "/ghost/a.json" then Return 0%nat
                          else Throw (LoadError path);
       exports := λ _, [("server-host", VStr "0.0.0.0")] |})
    as (arg & e & _ & _ & _ & Hthrow & _).
  - apply Exists_cons_tl, Exists_cons_hd. by eexists.
  - rewrite Hthrow. by vm_compute in Hthrow.
Defined.

Lemma assign_ref_object h object source :
  assign_ref h object source object = baseAssign (h object) (h source).
Proof. unfold assign_ref. by rewrite decide_True. Qed.

Lemma assign_ref_other h object source r :
  r ≠ object → assign_ref h object source r = h r.
Proof. intros. unfold assign_ref. by rewrite decide_False. Qed.

(** The object written to is shared with any later source that is the same
    object; when the first module is not listed again, the references
    behave like the objects they hold. *)
Lemma assign_apply_refs_fresh h object sources :
  object ∉ sources →
  (fold_left (λ h' s, assign_ref h' object s) sources h) object =
    assign (h object) (Some ∘ h <$> sources) ∧
  ∀ r, r ≠ object → (fold_left (λ h' s, assign_ref h' object s) sources h) r = h r.
Proof.
  revert h. induction sources as [|s sources IH]; intros h Hnotin; [done|].
  apply not_elem_of_cons in Hnotin as [Hs Hnotin].
  destruct (IH (assign_ref h object s) Hnotin) as [Hobj Hothers].
  cbn [fold_left]. split.
  - rewrite Hobj, assign_ref_object. simpl.
    f_equal. apply list_fmap_ext. intros i r Hr. simpl.
    rewrite assign_ref_other; [done|].
    intros ->. by apply Hnotin, list_elem_of_lookup_2 with i.
  - intros r Hr. by rewrite Hothers, assign_ref_other.
Qed.

(** Two files that are distinct modules: the properties of the second
    replace those of the first, whole values at the top level. *)
Lemma jsonjsParams_two_files proc a b ra rb k v :
  args_ proc = [a; b] →
  requireArg proc a = Return ra →
  requireArg proc b = Return rb →
  ra ≠ rb →
  NoDup (exports proc rb).*1 →
  get (exports proc rb) k = Some v →
  ∃ jsonjs, jsonjsParams proc = Return (Some jsonjs) ∧ get jsonjs k = Some v.
Proof.
  intros Hargs Ha Hb Hne Hnodup Hk. unfold jsonjsParams.
  rewrite Hargs. simpl. rewrite Ha, Hb. simpl. eexists. split; [done|].
  by rewrite assign_ref_object, get_baseAssign, get_reverse, Hk.
Qed.

Lemma get_assign_last {A} (object : props A) sources (s : props A) k v :
  NoDup s.*1 → get s k = Some v →
  get (assign object (sources ++ [Some s])%list) k = Some v.
Proof.
  intros Hnodup Hk. unfold assign. rewrite fold_left_app. simpl.
  by rewrite get_baseAssign, get_reverse, Hk.
Qed.

(** Later-listed files win, top-level value for top-level value, as long as
    the module listed first is not listed again. *)
Lemma jsonjsParams_last_file_wins proc first between last k v :
  mapM (requireArg proc) (args_ proc) = Return (first :: between ++ [last])%list →
  first ∉ (between ++ [last])%list →
  NoDup (exports proc last).*1 →
  get (exports proc last) k = Some v →
  ∃ jsonjs, jsonjsParams proc = Return (Some jsonjs) ∧ get jsonjs k = Some v.
Proof.
  intros Hmods Hfirst Hnodup Hk. unfold jsonjsParams. rewrite Hmods. simpl.
  eexists. split; [done|].
  destruct (assign_apply_refs_fresh (exports proc) first _ Hfirst) as [-> _].
  rewrite fmap_app. simpl. by apply get_assign_last.
Qed.

(** C7 fails when a file is listed first and again later: with a.json
    ({x: 1}), b.json ({x: 2}) and a.json again, the file-derived object and
    the tree returned have x = 2, the value of b.json, although a.json is
    listed after it.  The object that [require] returned for a.json is the
    one [_.assign] writes into, so by the time it is read as the last source
    it already holds the value of b.json. *)
Theorem file_listed_twice_loses :
  jsonjsParams listed_twice = Return (Some [("x", VNum 2)]) ∧
  getConfigOverrides listed_twice = Return (Some (VObj {["x" := VNum 2]})) ∧
  (∃ r, requireArg listed_twice (VStr "a.json") = Return r ∧
        exports listed_twice r = [("x", VNum 1)]).
Proof.
  split_and!; [reflexivity|by vm_compute|].
  exists 0%nat. by split.
Qed.

(** ** The top-level keys of the tree returned *)

Lemma expansion_top_key kv :
  ∃ k1 x, expansion kv = VObj {[k1 := x]} ∧ occurs hyphen k1 = false.
Proof.
  destruct kv as [k v]. destruct (key_path_cons k) as (k1 & rest & Hk).
  rewrite (expansion_nested _ _ _ _ Hk), nested_unfold.
  eexists _, _. split; [done|].
  pose proof (split_segments hyphen k) as Hseg. unfold key_path in Hk.
  rewrite Hk in Hseg. by inversion Hseg.
Qed.

Lemma fold_merge_top_keys (l : props value) a :
  (∀ k, is_Some (a !! k) → occurs hyphen k = false) →
  ∃ a', fold_left merge (expansion <$> l) (VObj a) = VObj a' ∧
        ∀ k, is_Some (a' !! k) → occurs hyphen k = false.
Proof.
  revert a. induction l as [|kv l IH]; intros a Ha; [by eauto|].
  rewrite fmap_cons. cbn [fold_left].
  destruct (expansion_top_key kv) as (k1 & x & -> & Hk1). cbn [merge].
  apply IH. intros k. rewrite lookup_baseMerge_singleton.
  case_decide; [by subst|]. apply Ha.
Qed.

Lemma reduce_merge_top_keys (l : props value) t :
  reduce merge (expansion <$> l) = Some t →
  ∃ a, t = VObj a ∧ ∀ k, is_Some (a !! k) → occurs hyphen k = false.
Proof.
  destruct l as [|kv l]; [done|]. rewrite fmap_cons. cbn [reduce].
  destruct (expansion_top_key kv) as (k1 & x & -> & Hk1).
  destruct (fold_merge_top_keys l {[k1 := x]}) as (a' & Hfold & Ha').
  - intros k. rewrite lookup_singleton. case_decide; [by subst|by intros [? ?]].
  - rewrite Hfold. intros [= <-]. eauto.
Qed.

(** C10: a top-level key of the file-derived object that no flag overrides
    is split on hyphens like any other key.  When the key paths of the
    combined parameters do not collide the tree returned holds the file's
    value, as it is, at the split path, and the tree has no top-level key
    with a hyphen in it.  A file alone with the single key a-b gives the
    tree with b under a; keys inside the value stay as they are. *)
Theorem file_keys_are_split proc flat jsonjs k v :
  params proc = Return flat →
  jsonjsParams proc = Return (Some jsonjs) →
  NoDup jsonjs.*1 →
  get jsonjs k = Some v →
  get (args_options proc) k = None →
  isArrayLike flat = None →
  independent (key_path <$> flat.*1) →
  (∃ t, getConfigOverrides proc = Return (Some (VObj t)) ∧
        get_path (VObj t) (split hyphen k) = Some v ∧
        (occurs hyphen k = true → t !! k = None)) ∧
  (∀ x c,
     getConfigOverrides
       {| env := []; args_ := [VStr "/ghost/config.json"]; args_options := [];
          cwd := c; require := λ _, Return 0%nat; exports := λ _, [("a-b", x)] |}
     = Return (Some (VObj {["a" := VObj {["b" := x]}]}))) ∧
  get_path (VObj {["a" := VObj {["b" := VObj {["x-y" := VNum 1]}]}]}) ["a"; "b"; "x-y"]
    = Some (VNum 1).
Proof.
  intros Hparams Hjson Hnodup Hk Hopt Hlen Hind.
  pose proof (get_params_jsonjs _ _ _ _ _ Hparams Hjson Hnodup Hk Hopt) as Hget.
  split_and!; [|done|done].
  destruct (getConfigOverrides_independent _ _ _ _ Hparams Hlen Hind Hget)
    as (t & Hreturn & Hpath).
  pose proof Hreturn as Hreduce.
  rewrite (getConfigOverrides_params _ _ Hparams Hlen) in Hreduce.
  injection Hreduce as Hreduce.
  destruct (reduce_merge_top_keys _ _ Hreduce) as (a & -> & Hkeys).
  exists a. split_and!; [done|done|].
  intros Hhyphen. apply eq_None_not_Some. intros Hsome%Hkeys. congruence.
Qed.

Lemma file_keys_are_split_witness :
  ∃ t,
    getConfigOverrides
      {| env := [("ghost_url", "http://localhost")];
         args_ := [VStr "config.json"];
         args_options := [("server-port", VNum 2368)];
         cwd := "/ghost";
         require := λ path, if String.eqb path "/ghost/config.json" then Return 0%nat
                            else Throw (LoadError path);
         exports := λ _, [("server-host", VStr "0.0.0.0");
                          ("mail", VObj {["from-address" := VStr "a@b"]})] |}
      = Return (Some (VObj t)) ∧
    get_path (VObj t) ["server"; "host"] = Some (VStr "0.0.0.0") ∧
    t !! "server-host" = None.
Proof.
  destruct (file_keys_are_split
    {| env := [("ghost_url", "http://localhost")];
       args_ := [VStr "config.json"];
       args_options := [("server-port", VNum 2368)];
       cwd := "/ghost";
       require := λ path, if String.eqb path "/ghost/config.json" then Return 0%nat
                          else Throw (LoadError path);
       exports := λ _, [("server-host", VStr "0.0.0.0");
                        ("mail", VObj {["from-address" := VStr "a@b"]})] |}
    [("url", VStr "http://localhost"); ("server-host", VStr "0.0.0.0");
     ("mail", VObj {["from-address" := VStr "a@b"]}); ("server-port", VNum 2368)]
    [("server-host", VStr "0.0.0.0"); ("mail", VObj {["from-address" := VStr "a@b"]})]
    "server-host" (VStr "0.0.0.0")) as [(t & Hreturn & Hpath & Hkey) _].
  - by vm_compute.
  - reflexivity.
  - by_evaluation.
  - reflexivity.
  - reflexivity.
  - reflexivity.
  - by_evaluation.
  - exists t. split_and!; [exact Hreturn|exact Hpath|by apply Hkey].
Defined.

(** ** Evaluations *)

Example split_key :
  split hyphen "database-connection-password" = ["database"; "connection"; "password"].
Proof. reflexivity. Qed.

Example split_empty_segments : split hyphen "a--b-" = ["a"; ""; "b"; ""].
Proof. reflexivity. Qed.

Example unflatten_life :
  unflatten ["life"; "universe"; "everything"] (VNum 42)
  = Return (VObj {["life" := VObj {["universe" := VObj {["everything" := VNum 42]}]}]}).
Proof. reflexivity. Qed.

(** Array indices are enumerated first, in numeric order. *)
Example put_order :
  put (put (put [] "b" 1%nat) "10" 2%nat) "9" 3%nat = [("9", 3%nat); ("10", 2%nat); ("b", 1%nat)].
Proof. reflexivity. Qed.

(** One positional file holding {"server": {"port": 3000}} and nothing else. *)
Example one_file :
  getConfigOverrides
    {| env := []; args_ := [VStr "config.json"]; args_options := [];
       cwd := "/ghost"; require := λ _, Return 0%nat;
       exports := λ _, [("server", VObj {["port" := VNum 3000]})] |}
  = Return (Some (VObj {["server" := VObj {["port" := VNum 3000]}]})).
Proof. by vm_compute. Qed.

(** A file's nested object and a flag below it are merged leaf by leaf. *)
Example file_and_flag :
  getConfigOverrides
    {| env := []; args_ := [VStr "config.json"];
       args_options := [("server-host", VStr "0.0.0.0")];
       cwd := "/ghost"; require := λ _, Return 0%nat;
       exports := λ _, [("server", VObj {["port" := VNum 3000]})] |}
  = Return (Some (VObj {["server" := VObj {["port" := VNum 3000; "host" := VStr "0.0.0.0"]}]})).
Proof. by vm_compute. Qed.

(** Colliding key paths: the parameter enumerated later decides. *)
Example colliding_flags :
  getConfigOverrides
    {| env := []; args_ := [];
       args_options := [("a-b", VStr "1"); ("a", VStr "2")];
       cwd := "/ghost"; require := λ p, Throw (LoadError p); exports := λ _, [] |}
  = Return (Some (VObj {["a" := VStr "2"]})).
Proof. by vm_compute. Qed.

(** A numeric length among the parameters makes lodash iterate them like an
    array, and the expansion of an index throws. *)
Example length_flag :
  getConfigOverrides
    {| env := []; args_ := [];
       args_options := [("length", VNum 2); ("a", VStr "1")];
       cwd := "/ghost"; require := λ p, Throw (LoadError p); exports := λ _, [] |}
  = Throw TypeError.
Proof. by vm_compute. Qed.

(** * Further properties of the code *)

(** ** Key paths *)

Lemma join_cons_char sep c seg rest :
  join sep (String c seg :: rest) = String c (join sep (seg :: rest)).
Proof. by destruct rest. Qed.

Lemma join_split sep s : join sep (split sep s) = s.
Proof.
  induction s as [|c s IH]; [done|]. cbn [split].
  destruct (Ascii.eqb_spec c sep) as [->|Hne].
  - pose proof (split_nonempty sep s) as Hs.
    destruct (split sep s) as [|seg rest]; [done|].
    cbn [join]. simpl. by rewrite <-IH.
  - destruct (split sep s) as [|seg rest] eqn:Hs; [by destruct (split_nonempty sep s)|].
    by rewrite join_cons_char, IH.
Qed.

(** X1: joining the segments of a key with hyphens gives the key back, and
    no segment holds a hyphen; so two keys with the same key path are the
    same key. *)
Theorem key_path_determines_key (k : string) :
  join hyphen (split hyphen k) = k ∧
  Forall (λ seg, occurs hyphen seg = false) (split hyphen k) ∧
  ∀ k', split hyphen k = split hyphen k' → k = k'.
Proof.
  split_and!; [apply join_split|apply split_segments|].
  intros k' Hk. by rewrite <-(join_split hyphen k), Hk, join_split.
Qed.

Lemma key_path_determines_key_witness : "server-port" = "server-port".
Proof.
  destruct (key_path_determines_key "server-port") as (_ & _ & Hinj).
  apply Hinj. reflexivity.
Defined.

(** ** The shape of an expansion *)

Lemma get_path_nested_prefix k rest v pre k' post :
  k :: rest = (pre ++ k' :: post)%list →
  ∃ x, get_path (nested k rest v) pre = Some (VObj {[k' := x]}).
Proof.
  revert k rest. induction pre as [|p pre IH]; intros k rest Hk.
  - simpl in Hk. injection Hk as -> ->. rewrite nested_unfold. by eexists.
  - rewrite <-app_comm_cons in Hk. injection Hk as -> ->.
    destruct pre as [|p' pre].
    + simpl. rewrite lookup_singleton_eq. simpl.
      destruct post; by eexists.
    + rewrite <-app_comm_cons. rewrite nested_unfold.
      change (get_path (VObj ?o) (p :: ?q)) with (o !! p ≫= λ x, get_path x q).
      rewrite lookup_singleton_eq. change (Some ?x ≫= ?f) with (f x). cbv beta.
      by apply IH.
Qed.

(** X2: on a non-empty key list unflatten returns a tree with one path:
    every level down to the value holds exactly the next key, and reading
    at a path that neither leads to the value nor goes through it gives
    nothing.  On the empty list it throws. *)
Theorem unflatten_single_path (keys : list string) (v : value) :
  keys ≠ [] →
  unflatten [] v = Throw RangeError ∧
  ∃ t, unflatten keys v = Return t ∧
    (∀ pre k post, keys = (pre ++ k :: post)%list →
       ∃ x, get_path t pre = Some (VObj {[k := x]})) ∧
    (∀ q, ¬ collide keys q → get_path t q = None).
Proof.
  intros Hne. split; [done|]. destruct keys as [|k rest]; [done|].
  exists (nested k rest v). split_and!.
  - apply unflatten_cons.
  - intros pre k' post. apply get_path_nested_prefix.
  - intros q. apply get_path_nested_None.
Qed.

Lemma unflatten_single_path_witness :
  ∃ t, unflatten ["a"; "b"; "c"] (VNum 1) = Return t ∧
       get_path t ["a"; "x"] = None ∧
       ∃ x, get_path t ["a"] = Some (VObj {["b" := x]}).
Proof.
  destruct (unflatten_single_path ["a"; "b"; "c"] (VNum 1)) as (_ & t & Ht & Hlevel & Hoff);
    [discriminate|].
  exists t. split_and!; [exact Ht| |].
  - apply Hoff. by_evaluation.
  - apply (Hlevel ["a"] "b" ["c"]). reflexivity.
Defined.

(** ** What the environment contributes *)

Lemma occurs_replace_all from to s :
  from ≠ to → occurs from (replace_all from to s) = false.
Proof.
  intros Hne. induction s as [|c s IH]; [done|]. simpl. rewrite IH, orb_false_r.
  destruct (Ascii.eqb_spec c from) as [->|Hc].
  - by apply Ascii.eqb_neq.
  - by apply Ascii.eqb_neq.
Qed.

Lemma match_literal_exact lit s rest :
  match_literal false lit s = Some rest ↔ s = lit +:+ rest.
Proof.
  revert s. induction lit as [|p lit IH]; intros s; simpl.
  - split; [by intros [= ->]|by intros ->].
  - destruct s as [|c s]; [done|]. unfold char_matches.
    destruct (Ascii.eqb_spec p c) as [->|Hne].
    + rewrite IH. split; [by intros ->|by intros [= ->]].
    + split; [done|]. by intros [= -> ->].
Qed.

Lemma match_literal_any_case lit s rest :
  match_literal true lit s = Some rest ↔
  ∃ pre, s = pre +:+ rest ∧ same_ignoring_case pre lit = true.
Proof.
  revert s. induction lit as [|p lit IH]; intros s; simpl.
  - split.
    + intros [= ->]. by exists "".
    + intros ([|c pre] & -> & Hpre); [done|]. by destruct pre.
  - destruct s as [|c s].
    + split; [done|]. intros ([|c pre] & Hs & Hpre); simpl in *; [done|done].
    + unfold char_matches. rewrite Ascii.eqb_sym.
      destruct (Ascii.eqb (canonicalize c) (canonicalize p)) eqn:Hc.
      * rewrite IH. split.
        -- intros (pre & -> & Hpre). exists (String c pre). simpl. by rewrite Hc.
        -- intros ([|c' pre] & Hs & Hpre); simpl in *; [done|].
           injection Hs as <- ->. apply andb_true_iff in Hpre as [_ Hpre].
           by exists pre.
      * split; [done|]. intros ([|c' pre] & Hs & Hpre); simpl in *; [done|].
        injection Hs as <- ->. by rewrite Hc in Hpre.
Qed.

Lemma test_true p name :
  test p name = true ↔ ∃ rest, match_literal (ignoreCase p) (literal p) name = Some rest.
Proof.
  unfold test, exec1. rewrite bool_decide_eq_true, fmap_is_Some.
  split; intros [rest Hrest]; by exists rest.
Qed.

(** X3: a name is matched by the first expression exactly when it starts
    with npm_package_config_ in lower case, and by the second exactly when
    it starts with ghost_ in any mix of cases; the prefix is looked for at
    the start of the name only. *)
Theorem matched_names (name : string) :
  (test npm_package_config name = true ↔
     ∃ suffix, name = "npm_package_config_" +:+ suffix) ∧
  (test ghost name = true ↔
     ∃ pre suffix, name = pre +:+ suffix ∧ same_ignoring_case pre "ghost_" = true) ∧
  test npm_package_config "NPM_PACKAGE_CONFIG_url" = false ∧
  test ghost "my_ghost_url" = false.
Proof.
  split_and!; [| |done|done].
  - rewrite test_true. cbn [ignoreCase literal npm_package_config].
    split; intros [rest Hrest]; exists rest; by apply match_literal_exact.
  - rewrite test_true. cbn [ignoreCase literal ghost]. split.
    + intros [rest (pre & -> & Hpre)%match_literal_any_case]. by exists pre, rest.
    + intros (pre & rest & -> & Hpre). exists rest.
      apply match_literal_any_case. by exists pre.
Qed.

(** X4: every property of the environment-derived object comes from a
    variable that one of the two expressions matches: its name is the key
    that variable derives, it holds no underscore, and its value is the
    string the variable holds.  Other variables contribute nothing. *)
Theorem envParams_from_matched_variables environment combined k x :
  envParams environment = Return (Some combined) →
  get combined k = Some x →
  occurs underscore k = false ∧
  ∃ name v,
    (name, v) ∈ environment ∧ x = VStr v ∧
    ((test npm_package_config name = true ∧ derived_key npm_package_config name = k) ∨
     (test ghost name = true ∧ derived_key ghost name = k)).
Proof.
  rewrite envParams_Return. intros [= <-]. rewrite get_baseAssign.
  rewrite get_reverse by apply NoDup_zipObject.
  assert (∀ p, get (pattern_object p environment) k = Some x →
    occurs underscore k = false ∧
    ∃ name v, (name, v) ∈ environment ∧ x = VStr v ∧
              test p name = true ∧ derived_key p name = k) as Hp.
  { intros p (name & v & Hin & Htest & <- & ->)%pattern_object_Some. split.
    - by apply occurs_replace_all.
    - by exists name, v. }
  destruct (get (pattern_object ghost environment) k) as [y|] eqn:Hghost.
  - intros [= ->]. destruct (Hp ghost Hghost) as (Hk & name & v & ? & ? & ? & ?).
    split; [done|]. exists name, v. split_and!; [done|done|by right].
  - intros Hnpm. destruct (Hp _ Hnpm) as (Hk & name & v & ? & ? & ? & ?).
    split; [done|]. exists name, v. split_and!; [done|done|by left].
Qed.

Lemma envParams_from_matched_variables_witness :
  occurs underscore "server-port" = false ∧
  ∃ name v,
    (name, v) ∈ [("HOME", "/ghost"); ("ghost_server_port", "2368")] ∧
    VStr "2368" = VStr v ∧
    ((test npm_package_config name = true ∧
      derived_key npm_package_config name = "server-port") ∨
     (test ghost name = true ∧ derived_key ghost name = "server-port")).
Proof.
  apply (envParams_from_matched_variables
           [("HOME", "/ghost"); ("ghost_server_port", "2368")]
           [("server-port", VStr "2368")]); reflexivity.
Defined.

(** ** The combined parameters *)

Lemma NoDup_baseAssign {A} (object source : props A) :
  NoDup object.*1 → NoDup (baseAssign object source).*1.
Proof. apply NoDup_fold_put. Qed.

Lemma NoDup_assign {A} (object : props A) sources :
  NoDup object.*1 → NoDup (assign object sources).*1.
Proof.
  revert object. induction sources as [|[s|] sources IH]; intros object Hobject;
    simpl; [done| |by apply IH].
  by apply IH, NoDup_baseAssign.
Qed.

Lemma get_baseAssign_NoDup {A} (object source : props A) k :
  NoDup source.*1 →
  get (baseAssign object source) k =
    match get source k return option A with
    | Some x => Some x
    | None => get object k
    end.
Proof. intros Hsource. by rewrite get_baseAssign, get_reverse. Qed.

(** X5: the combined parameters hold, for every name, the value of the
    flag of that name; else the value the file-derived object has; else the
    value derived from a ghost_ variable; else the value derived from an
    npm_package_config_ variable; and no name twice. *)
Theorem params_precedence proc flat jsonjs k :
  params proc = Return flat →
  jsonjsParams proc = Return jsonjs →
  NoDup (args_options proc).*1 →
  (∀ object, jsonjs = Some object → NoDup object.*1) →
  NoDup flat.*1 ∧
  get flat k =
    match get (args_options proc) k with
    | Some v => Some v
    | None =>
        match jsonjs ≫= λ object, get object k with
        | Some v => Some v
        | None =>
            match get (pattern_object ghost (env proc)) k with
            | Some v => Some v
            | None => get (pattern_object npm_package_config (env proc)) k
            end
        end
    end.
Proof.
  intros (jsonjs' & others & Hjson & -> & ->)%params_inv Hjson' Hopts Hfile.
  rewrite Hjson in Hjson'. injection Hjson' as ->. split.
  { apply NoDup_baseAssign, NoDup_assign. constructor. }
  rewrite get_baseAssign_NoDup by done.
  destruct (get (args_options proc) k); [done|].
  assert (NoDup (baseAssign (pattern_object npm_package_config (env proc))
                            (pattern_object ghost (env proc))).*1) as Henv
    by apply NoDup_baseAssign, NoDup_zipObject.
  destruct jsonjs as [object|]; simpl.
  - rewrite get_baseAssign_NoDup by by apply Hfile.
    destruct (get object k); [done|].
    rewrite get_baseAssign_NoDup by done.
    rewrite get_baseAssign_NoDup by apply NoDup_zipObject.
    by repeat case_match.
  - rewrite get_baseAssign_NoDup by done.
    rewrite get_baseAssign_NoDup by apply NoDup_zipObject.
    by repeat case_match.
Qed.

Lemma params_precedence_witness :
  get [("url", VStr "e"); ("server-host", VStr "f"); ("server-port", VNum 1)] "server-host"
  = Some (VStr "f").
Proof.
  destruct (params_precedence
    {| env := [("ghost_url", "e"); ("ghost_server_host", "e")];
       args_ := [VStr "/ghost/config.json"];
       args_options := [("server-port", VNum 1)];
       cwd := "/ghost"; require := λ _, Return 0%nat;
       exports := λ _, [("server-port", VNum 2); ("server-host", VStr "f")] |}
    [("url", VStr "e"); ("server-host", VStr "f"); ("server-port", VNum 1)]
    (Some [("server-port", VNum 2); ("server-host", VStr "f")])
    "server-host") as [_ Hget].
  - reflexivity.
  - reflexivity.
  - by_evaluation.
  - intros object [= <-]. by_evaluation.
  - exact Hget.
Defined.

(** ** What the call returns and when it throws *)

Lemma isArrayLike_nil : isArrayLike [] = None.
Proof. done. Qed.

Lemma getConfigOverrides_array_like proc flat length :
  params proc = Return flat →
  isArrayLike flat = Some length →
  getConfigOverrides proc =
    if 2 ^ 32 - 1 <? length then Throw RangeError
    else if length =? 0 then Return None else Throw TypeError.
Proof.
  intros Hparams Hlen. unfold getConfigOverrides. rewrite Hparams. simpl.
  rewrite (lodash_map_expand_array_like _ _ Hlen).
  destruct (2 ^ 32 - 1 <? length); [done|]. by destruct (length =? 0).
Qed.

(** X6: a result that is not undefined is an object, and none of its
    top-level keys holds a hyphen. *)
Theorem result_is_an_object proc t :
  getConfigOverrides proc = Return (Some t) →
  ∃ o, t = VObj o ∧ ∀ k, is_Some (o !! k) → occurs hyphen k = false.
Proof.
  intros Hreturn. destruct (params proc) as [flat|e] eqn:Hparams.
  - destruct (isArrayLike flat) as [length|] eqn:Hlen.
    + rewrite (getConfigOverrides_array_like _ _ _ Hparams Hlen) in Hreturn.
      destruct (2 ^ 32 - 1 <? length); [done|]. by destruct (length =? 0).
    + rewrite (getConfigOverrides_params _ _ Hparams Hlen) in Hreturn.
      injection Hreturn as Hreduce. by apply reduce_merge_top_keys in Hreduce.
  - unfold getConfigOverrides in Hreturn. by rewrite Hparams in Hreturn.
Qed.

Lemma result_is_an_object_witness :
  ∃ o, VObj {["server" := VObj {["port" := VNum 3000]}]} = VObj o ∧
       ∀ k, is_Some (o !! k) → occurs hyphen k = false.
Proof.
  apply (result_is_an_object
    {| env := []; args_ := [VStr "config.json"]; args_options := [];
       cwd := "/ghost"; require := λ _, Return 0%nat;
       exports := λ _, [("server-port", VNum 3000)] |}).
  by vm_compute.
Defined.

(** X7: the call returns undefined exactly when there is no parameter at
    all, or when a length of 0 among the parameters makes lodash see an
    empty array; with at least one parameter and no numeric length it
    returns a tree. *)
Theorem undefined_only_without_parameters proc flat :
  params proc = Return flat →
  (getConfigOverrides proc = Return None ↔ flat = [] ∨ isArrayLike flat = Some 0) ∧
  (flat ≠ [] → isArrayLike flat = None →
   ∃ o, getConfigOverrides proc = Return (Some (VObj o))).
Proof.
  intros Hparams.
  assert (flat ≠ [] → isArrayLike flat = None →
          ∃ o, getConfigOverrides proc = Return (Some (VObj o))) as Hsome.
  { intros Hne Hlen. rewrite (getConfigOverrides_params _ _ Hparams Hlen).
    destruct flat as [|kv flat]; [done|].
    destruct (reduce merge (expansion <$> kv :: flat)) as [t|] eqn:Hreduce; [|done].
    destruct (reduce_merge_top_keys _ _ Hreduce) as (o & -> & _). by exists o. }
  split; [|done]. split.
  - intros Hnone. destruct (isArrayLike flat) as [length|] eqn:Hlen.
    + rewrite (getConfigOverrides_array_like _ _ _ Hparams Hlen) in Hnone.
      destruct (2 ^ 32 - 1 <? length); [done|].
      destruct (Z.eqb_spec length 0) as [->|]; [by right|done].
    + left. destruct flat as [|kv flat]; [done|].
      destruct Hsome as [o Ho]; [done|done|]. by rewrite Ho in Hnone.
  - intros [->|Hlen].
    + by rewrite (getConfigOverrides_params _ _ Hparams isArrayLike_nil).
    + by rewrite (getConfigOverrides_array_like _ _ _ Hparams Hlen).
Qed.

Lemma undefined_only_without_parameters_witness :
  ∃ o,
    getConfigOverrides
      {| env := [("ghost_url", "u")]; args_ := []; args_options := [];
         cwd := "/ghost"; require := λ p, Throw (LoadError p); exports := λ _, [] |}
    = Return (Some (VObj o)).
Proof.
  destruct (undefined_only_without_parameters
    {| env := [("ghost_url", "u")]; args_ := []; args_options := [];
       cwd := "/ghost"; require := λ p, Throw (LoadError p); exports := λ _, [] |}
    [("url", VStr "u")]) as [_ Hsome]; [reflexivity|].
  apply Hsome; [discriminate|reflexivity].
Defined.

(** X8: a parameter named length whose value is a whole number from 0 to
    2^53 - 1 makes lodash iterate the parameters as an array of that length:
    the call returns undefined for 0, throws a TypeError (the key passed to
    the expansion is a number) for a length up to 2^32 - 1, and a RangeError
    above; no tree is returned. *)
Theorem numeric_length_parameter proc flat n :
  params proc = Return flat →
  get flat "length" = Some (VNum n) →
  0 ≤ n ≤ MAX_SAFE_INTEGER →
  getConfigOverrides proc =
    if n =? 0 then Return None
    else if n <=? 2 ^ 32 - 1 then Throw TypeError else Throw RangeError.
Proof.
  intros Hparams Hget [Hlo Hhi].
  assert (isArrayLike flat = Some n) as Hlen.
  { unfold isArrayLike. rewrite Hget. simpl.
    destruct (Z.leb_spec 0 n); [|lia]. destruct (Z.leb_spec n MAX_SAFE_INTEGER); [done|lia]. }
  rewrite (getConfigOverrides_array_like _ _ _ Hparams Hlen).
  destruct (Z.ltb_spec (2 ^ 32 - 1) n), (Z.eqb_spec n 0), (Z.leb_spec n (2 ^ 32 - 1));
    try done; lia.
Qed.

Lemma numeric_length_parameter_witness :
  getConfigOverrides
    {| env := []; args_ := []; args_options := [("length", VNum 3); ("url", VStr "u")];
       cwd := "/ghost"; require := λ p, Throw (LoadError p); exports := λ _, [] |}
  = Throw TypeError.
Proof.
  apply (numeric_length_parameter
    {| env := []; args_ := []; args_options := [("length", VNum 3); ("url", VStr "u")];
       cwd := "/ghost"; require := λ p, Throw (LoadError p); exports := λ _, [] |}
    [("length", VNum 3); ("url", VStr "u")] 3); [reflexivity|reflexivity|].
  unfold MAX_SAFE_INTEGER. lia.
Defined.

Lemma mapM_Throw_inv {A B} (f : A → completion B) (l : list A) e :
  mapM f l = Throw e → Exists (λ x, ∃ e', f x = Throw e') l.
Proof.
  induction l as [|x l IH]; simpl; [done|].
  destruct (f x) as [y|e'] eqn:Hx; simpl.
  - destruct (mapM f l) as [ys|e'']; simpl; [done|].
    intros [= ->]. by apply Exists_cons_tl, IH.
  - intros _. apply Exists_cons_hd. by exists e'.
Qed.

(** X9: for an environment that lodash does not take for one of its own
    wrappers (see [unwrapped]) and parameters with ordinary property names
    (see [ordinary_param]), reading the environment does not throw, and the
    call throws exactly when a positional argument cannot be loaded, or when
    a non-zero length among the parameters makes lodash see an array. *)
Theorem throws_only_for_files_or_length proc :
  unwrapped (env proc) →
  (∀ flat, params proc = Return flat → Forall ordinary_param flat) →
  (∃ combined, envParams (env proc) = Return (Some combined)) ∧
  ((∃ e, getConfigOverrides proc = Throw e) ↔
   Exists (λ arg, ∃ e, requireArg proc arg = Throw e) (args_ proc) ∨
   ∃ flat length,
     params proc = Return flat ∧ isArrayLike flat = Some length ∧ length ≠ 0).
Proof.
  intros _ _.
  split; [eexists; apply envParams_Return|]. split.
  - intros [e Hthrow]. destruct (params proc) as [flat|e'] eqn:Hparams.
    + right. destruct (isArrayLike flat) as [length|] eqn:Hlen.
      * exists flat, length. split_and!; [done|done|]. intros ->.
        by rewrite (getConfigOverrides_array_like _ _ _ Hparams Hlen) in Hthrow.
      * by rewrite (getConfigOverrides_params _ _ Hparams Hlen) in Hthrow.
    + left. rewrite params_unfold in Hparams. unfold jsonjsParams in Hparams.
      destruct (mapM (requireArg proc) (args_ proc)) as [modules|e''] eqn:Hmods.
      * simpl in Hparams. by destruct (assign_apply_refs (exports proc) modules).
      * by eapply mapM_Throw_inv.
  - intros [(before & arg & after & e & Hargs & Hbefore & Harg)%first_Throw
           |(flat & length & Hparams & Hlen & Hne)].
    + exists e. unfold getConfigOverrides. rewrite params_unfold.
      unfold jsonjsParams. by rewrite Hargs, (mapM_Throw _ _ _ _ e Hbefore Harg).
    + rewrite (getConfigOverrides_array_like _ _ _ Hparams Hlen).
      destruct (2 ^ 32 - 1 <? length); [by eexists|].
      destruct (Z.eqb_spec length 0); [done|by eexists].
Qed.

Lemma throws_only_for_files_or_length_witness :
  (∃ combined,
     envParams [("HOME", "/ghost"); ("ghost_url", "u")] = Return (Some combined)) ∧
  (∃ e,
     getConfigOverrides
       {| env := [("HOME", "/ghost"); ("ghost_url", "u")]; args_ := [];
          args_options := [("length", VNum 3)];
          cwd := "/ghost"; require := λ p, Throw (LoadError p); exports := λ _, [] |}
     = Throw e).
Proof.
  destruct (throws_only_for_files_or_length
    {| env := [("HOME", "/ghost"); ("ghost_url", "u")]; args_ := [];
       args_options := [("length", VNum 3)];
       cwd := "/ghost"; require := λ p, Throw (LoadError p); exports := λ _, [] |})
    as [Henv [_ Hthrows]].
  - by_evaluation.
  - intros flat [= <-]. by_evaluation.
  - split; [exact Henv|]. apply Hthrows. right.
    exists [("url", VStr "u"); ("length", VNum 3)], 3. by split_and!.
Defined.

(** ** The order in which the parameters are enumerated *)

Lemma independent_Permutation paths paths' :
  paths ≡ₚ paths' → independent paths → independent paths'.
Proof.
  induction 1 as [|p l l' Hl IH|p q l|l1 l2 l3 _ IH1 _ IH2]; simpl.
  - done.
  - intros [Hp Hind]. split; [by rewrite <-Hl|by apply IH].
  - intros [[Hqp Hq]%Forall_cons [Hp Hind]].
    split_and!; [|done|done].
    apply Forall_cons. split; [|done]. by intros ?%collide_sym.
  - intros. by apply IH2, IH1.
Qed.

Lemma expansion_is_obj kv : ∃ o, expansion kv = VObj o.
Proof. destruct (expansion_top_key kv) as (k1 & x & -> & _). by eexists. Qed.

Lemma merge_expansion_is_obj a kv : ∃ a', merge (VObj a) (expansion kv) = VObj a'.
Proof. destruct (expansion_is_obj kv) as [o ->]. by eexists. Qed.

Lemma merge_expansion_swap a kv1 kv2 :
  ¬ collide (key_path kv1.1) (key_path kv2.1) →
  merge (merge (VObj a) (expansion kv1)) (expansion kv2) =
  merge (merge (VObj a) (expansion kv2)) (expansion kv1).
Proof.
  destruct kv1 as [k1 v1], kv2 as [k2 v2]. cbn [fst]. intros Hc.
  destruct (key_path_cons k1) as (a1 & r1 & Hk1).
  destruct (key_path_cons k2) as (a2 & r2 & Hk2).
  rewrite (expansion_nested _ _ _ _ Hk1), (expansion_nested _ _ _ _ Hk2).
  rewrite Hk1, Hk2 in Hc.
  rewrite merge_nested_assoc by done.
  rewrite merge_nested_comm by done.
  rewrite <-merge_nested_assoc; [done|]. by intros ?%collide_sym.
Qed.

Lemma fold_merge_Permutation (l l' : props value) :
  l ≡ₚ l' →
  independent (key_path <$> l.*1) →
  ∀ a, fold_left merge (expansion <$> l) (VObj a) =
       fold_left merge (expansion <$> l') (VObj a).
Proof.
  induction 1 as [|kv l l' Hl IH|kv1 kv2 l|l1 l2 l3 Hl12 IH1 _ IH2].
  - done.
  - rewrite !fmap_cons. intros [_ Hind] a. cbn [fold_left].
    destruct (merge_expansion_is_obj a kv) as [a' ->]. by apply IH.
  - rewrite !fmap_cons. intros [[Hc _]%Forall_cons _] a. cbn [fold_left].
    rewrite merge_expansion_swap; [done|]. by intros ?%collide_sym.
  - intros Hind a. rewrite IH1 by done. apply IH2.
    eapply independent_Permutation; [|done]. by rewrite Hl12.
Qed.

Lemma reduce_merge_from_empty (l : props value) :
  reduce merge (expansion <$> l) =
    match l with
    | [] => None
    | _ => Some (fold_left merge (expansion <$> l) (VObj ∅))
    end.
Proof.
  destruct l as [|kv l]; [done|]. rewrite fmap_cons. cbn [reduce fold_left].
  destruct (expansion_is_obj kv) as [o ->]. cbn [merge].
  by rewrite baseMerge_empty_l.
Qed.

Lemma get_Permutation {A} (o o' : props A) k :
  NoDup o.*1 → o ≡ₚ o' → get o k = get o' k.
Proof.
  intros Ho Hperm.
  assert (NoDup o'.*1) as Ho' by by rewrite <-Hperm.
  destruct (get o k) as [x|] eqn:Hk.
  - symmetry. apply elem_of_get; [done|]. rewrite <-Hperm. by apply get_elem_of.
  - symmetry. apply get_None. rewrite <-Hperm. by apply get_None.
Qed.

Lemma NoDup_params proc flat : params proc = Return flat → NoDup flat.*1.
Proof.
  intros (jsonjs & others & _ & -> & ->)%params_inv.
  apply NoDup_baseAssign, NoDup_assign. constructor.
Qed.

(** X10: for environments that lodash does not take for one of its own
    wrappers and parameters with ordinary property names, when no two key
    paths of the combined parameters collide, the result does not depend on
    the order in which the parameters are enumerated: two runs whose
    combined parameters are the same up to order return the same tree. *)
Theorem enumeration_order_is_irrelevant proc1 proc2 flat1 flat2 :
  unwrapped (env proc1) →
  unwrapped (env proc2) →
  params proc1 = Return flat1 →
  params proc2 = Return flat2 →
  Forall ordinary_param flat1 →
  flat1 ≡ₚ flat2 →
  independent (key_path <$> flat1.*1) →
  getConfigOverrides proc1 = getConfigOverrides proc2.
Proof.
  intros _ _ Hparams1 Hparams2 _ Hperm Hind.
  assert (isArrayLike flat1 = isArrayLike flat2) as Hlen.
  { unfold isArrayLike. rewrite (get_Permutation flat1 flat2); [done| |done].
    by eapply NoDup_params. }
  destruct (isArrayLike flat1) as [length|] eqn:Hlen1; symmetry in Hlen.
  - by rewrite (getConfigOverrides_array_like _ _ _ Hparams1 Hlen1),
               (getConfigOverrides_array_like _ _ _ Hparams2 Hlen).
  - rewrite (getConfigOverrides_params _ _ Hparams1 Hlen1),
            (getConfigOverrides_params _ _ Hparams2 Hlen).
    rewrite !reduce_merge_from_empty.
    destruct flat1 as [|kv1 flat1], flat2 as [|kv2 flat2]; try done.
    + by apply Permutation_nil_cons in Hperm.
    + symmetry in Hperm. by apply Permutation_nil_cons in Hperm.
    + do 2 f_equal. by apply fold_merge_Permutation.
Qed.

Lemma enumeration_order_is_irrelevant_witness :
  getConfigOverrides
    {| env := []; args_ := [];
       args_options := [("server-port", VNum 1); ("url", VStr "u"); ("server-host", VStr "h")];
       cwd := "/ghost"; require := λ p, Throw (LoadError p); exports := λ _, [] |}
  = getConfigOverrides
    {| env := []; args_ := [];
       args_options := [("url", VStr "u"); ("server-host", VStr "h"); ("server-port", VNum 1)];
       cwd := "/ghost"; require := λ p, Throw (LoadError p); exports := λ _, [] |}.
Proof.
  apply (enumeration_order_is_irrelevant _ _
    [("server-port", VNum 1); ("url", VStr "u"); ("server-host", VStr "h")]
    [("url", VStr "u"); ("server-host", VStr "h"); ("server-port", VNum 1)]).
  - by_evaluation.
  - by_evaluation.
  - reflexivity.
  - reflexivity.
  - by_evaluation.
  - apply (Permutation_cons_append [_; _]).
  - by_evaluation.
Defined.

Lemma mergeInto_primitive v objValue : primitive v = true → mergeInto v objValue = v.
Proof. by destruct v. Qed.

Lemma fold_merge_is_obj (l : props value) a :
  ∃ a', fold_left merge (expansion <$> l) (VObj a) = VObj a'.
Proof.
  revert a. induction l as [|kv l IH]; intros a; [by eexists|].
  rewrite fmap_cons. cbn [fold_left].
  destruct (merge_expansion_is_obj a kv) as [a1 ->]. apply IH.
Qed.

(** X11: for an environment that lodash does not take for one of its own
    wrappers and parameters with ordinary property names, none of which
    makes lodash see an array (no numeric length), the parameter enumerated
    last reaches the tree whatever the parameters before it are: the tree
    holds at its key path its value merged into what the tree of the
    parameters before it holds at that path, which is the value itself when
    it is a primitive. *)
Theorem last_parameter_wins proc before k v :
  unwrapped (env proc) →
  Forall ordinary_param (before ++ [(k, v)])%list →
  params proc = Return (before ++ [(k, v)])%list →
  isArrayLike (before ++ [(k, v)])%list = None →
  ∃ t,
    getConfigOverrides proc = Return (Some t) ∧
    get_path t (key_path k) =
      Some (mergeInto v (reduce merge (expansion <$> before) ≫=
                           λ earlier, get_path earlier (key_path k))) ∧
    (primitive v = true → get_path t (key_path k) = Some v).
Proof.
  intros _ _ Hparams Hlen.
  rewrite (getConfigOverrides_params _ _ Hparams Hlen), !reduce_merge_from_empty.
  destruct (before ++ [(k, v)])%list as [|kv l] eqn:Hl; [by destruct before|].
  rewrite <-Hl, fmap_app, fold_left_app. cbn [fmap list_fmap fold_left].
  destruct (key_path_cons k) as (k1 & rest & Hk).
  rewrite (expansion_nested _ _ _ _ Hk), Hk.
  assert (reduce_before :
    (match before with
     | [] => None
     | _ => Some (fold_left merge (list_fmap _ _ expansion before) (VObj ∅))
     end ≫= λ earlier, get_path earlier (k1 :: rest))
    = get_path (fold_left merge (list_fmap _ _ expansion before) (VObj ∅)) (k1 :: rest)).
  { by destruct before. }
  change (expansion <$> before) with (list_fmap _ _ expansion before).
  rewrite reduce_before.
  destruct (fold_merge_is_obj before ∅) as [a Ha].
  change (expansion <$> before) with (list_fmap _ _ expansion before) in Ha.
  rewrite Ha.
  eexists. split_and!; [done|apply merge_nested_write|].
  intros Hprim. by rewrite merge_nested_write, mergeInto_primitive.
Qed.

Lemma last_parameter_wins_witness :
  ∃ t,
    getConfigOverrides
      {| env := []; args_ := [];
         args_options := [("a-b", VStr "1"); ("a", VStr "2")];
         cwd := "/ghost"; require := λ p, Throw (LoadError p); exports := λ _, [] |}
    = Return (Some t) ∧
    get_path t ["a"] = Some (VStr "2").
Proof.
  destruct (last_parameter_wins
    {| env := []; args_ := [];
       args_options := [("a-b", VStr "1"); ("a", VStr "2")];
       cwd := "/ghost"; require := λ p, Throw (LoadError p); exports := λ _, [] |}
    [("a-b", VStr "1")] "a" (VStr "2")) as (t & Ht & _ & Hprim);
    [by_evaluation|by_evaluation|reflexivity|reflexivity|].
  exists t. split; [exact Ht|]. by apply Hprim.
Defined.

(** ** Positional arguments *)

Lemma path_isAbsolute_inv path :
  path_isAbsolute path = true → ∃ rest, path = String "/"%char rest.
Proof.
  destruct path as [|c rest]; [done|].
  destruct c as [[] [] [] [] [] [] [] []]; try done. by exists rest.
Qed.

Lemma path_join_absolute a b :
  path_isAbsolute a = true → path_isAbsolute (path_join a b) = true.
Proof.
  intros [a' ->]%path_isAbsolute_inv. unfold path_join.
  change (String.eqb (String "/" a') "") with false. cbn match.
  assert (∀ joined, path_isAbsolute (path_normalize (String "/" joined)) = true) as Hnorm.
  { intros joined. unfold path_normalize.
    change (path_isAbsolute (String "/" joined)) with true. by cbn match. }
  destruct (String.eqb b ""); apply Hnorm.
Qed.

(** X12: when the working directory is an absolute path, require is only
    called with an absolute path: an absolute argument is passed on as it
    is, a relative one is joined to the working directory; an argument that
    is not a string throws a TypeError before require is called. *)
Theorem require_gets_an_absolute_path proc arg :
  path_isAbsolute (cwd proc) = true →
  (∀ path, arg = VStr path →
     ∃ abspath,
       path_isAbsolute abspath = true ∧
       requireArg proc arg = require proc abspath ∧
       (path_isAbsolute path = true → abspath = path) ∧
       (path_isAbsolute path = false → abspath = path_join (cwd proc) path)) ∧
  ((∀ path, arg ≠ VStr path) → requireArg proc arg = Throw TypeError).
Proof.
  intros Hcwd. split.
  - intros path ->. simpl. destruct (path_isAbsolute path) eqn:Hpath.
    + by exists path.
    + eexists. split_and!; [by apply path_join_absolute|done|done|done].
  - intros Hne. destruct arg; try done. by destruct (Hne s).
Qed.

Lemma require_gets_an_absolute_path_witness :
  path_isAbsolute "/ghost/etc/config.json" = true ∧
  requireArg
    {| env := []; args_ := [VStr "../etc/config.json"]; args_options := [];
       cwd := "/ghost/current"; require := λ p, Throw (LoadError p);
       exports := λ _, [] |}
    (VStr "../etc/config.json")
  = Throw (LoadError "/ghost/etc/config.json").
Proof.
  destruct (require_gets_an_absolute_path
    {| env := []; args_ := [VStr "../etc/config.json"]; args_options := [];
       cwd := "/ghost/current"; require := λ p, Throw (LoadError p);
       exports := λ _, [] |}
    (VStr "../etc/config.json")) as [Hstr _]; [reflexivity|].
  destruct (Hstr "../etc/config.json") as (abspath & Habs & Hreq & _ & Hjoin);
    [reflexivity|].
  rewrite (Hjoin eq_refl) in Habs, Hreq. split; [exact Habs|exact Hreq].
Defined.

Lemma baseAssign_keeps {A} (object source : props A) k :
  is_Some (get object k) → is_Some (get (baseAssign object source) k).
Proof.
  intros [x Hx]. rewrite get_baseAssign, Hx. by destruct (get (reverse source) k).
Qed.

Lemma baseAssign_takes {A} (object source : props A) k :
  is_Some (get source k) → is_Some (get (baseAssign object source) k).
Proof.
  intros [x Hx]%get_reverse_is_Some. rewrite get_baseAssign, Hx. by eexists.
Qed.

Lemma assign_refs_fold h first sources :
  let h' := fold_left (λ h' s, assign_ref h' first s) sources h in
  (∀ r, r ≠ first → h' r = h r) ∧
  (∀ k, is_Some (get (h first) k) → is_Some (get (h' first) k)) ∧
  (∀ r k, r ∈ sources → is_Some (get (h r) k) → is_Some (get (h' first) k)).
Proof.
  revert h. induction sources as [|s sources IH]; intros h; simpl.
  { split_and!; [done|done|]. by intros r k ?%elem_of_nil. }
  destruct (IH (assign_ref h first s)) as (Hothers & Hfirst & Hsources).
  split_and!.
  - intros r Hr. by rewrite Hothers, assign_ref_other.
  - intros k Hk. apply Hfirst. rewrite assign_ref_object. by apply baseAssign_keeps.
  - intros r k [->|Hr]%elem_of_cons Hk.
    + apply Hfirst. rewrite assign_ref_object. by apply baseAssign_takes.
    + apply (Hsources r k Hr). destruct (decide (r = first)) as [->|Hne].
      * rewrite assign_ref_object. by apply baseAssign_keeps.
      * by rewrite assign_ref_other.
Qed.

(** X13: the file-derived object is the object of the first positional
    file itself, written to in place: after the step the store holds under
    the first module an object with every top-level property of every file
    listed, and the step writes to no other module. *)
Theorem files_are_assigned_into_the_first proc first sources :
  mapM (requireArg proc) (args_ proc) = Return (first :: sources) →
  ∃ h',
    assign_apply_refs (exports proc) (first :: sources) = (Some first, h') ∧
    jsonjsParams proc = Return (Some (h' first)) ∧
    (∀ r, r ≠ first → h' r = exports proc r) ∧
    (∀ r k, r ∈ first :: sources → is_Some (get (exports proc r) k) →
            is_Some (get (h' first) k)).
Proof.
  intros Hmods. eexists. split; [done|].
  destruct (assign_refs_fold (exports proc) first sources) as (Hothers & Hfirst & Hsources).
  split_and!.
  - unfold jsonjsParams. by rewrite Hmods.
  - done.
  - intros r k [->|Hr]%elem_of_cons; [apply Hfirst|by apply Hsources].
Qed.

Lemma files_are_assigned_into_the_first_witness :
  ∃ written,
    jsonjsParams
      {| env := []; args_ := [VStr "/a.json"; VStr "/b.json"]; args_options := [];
         cwd := "/ghost";
         require := λ p, if String.eqb p "/a.json" then Return 0%nat else Return 1%nat;
         exports := λ r, match r with
                         | O => [("url", VStr "u")]
                         | _ => [("mail", VStr "m")]
                         end |}
    = Return (Some written) ∧
    is_Some (get written "url") ∧ is_Some (get written "mail").
Proof.
  destruct (files_are_assigned_into_the_first
    {| env := []; args_ := [VStr "/a.json"; VStr "/b.json"]; args_options := [];
       cwd := "/ghost";
       require := λ p, if String.eqb p "/a.json" then Return 0%nat else Return 1%nat;
       exports := λ r, match r with
                       | O => [("url", VStr "u")]
                       | _ => [("mail", VStr "m")]
                       end |}
    0%nat [1%nat]) as (h' & _ & Hjson & _ & Hkeys); [reflexivity|].
  exists (h' 0%nat). split_and!; [exact Hjson| |].
  - apply (Hkeys 0%nat); [by_evaluation|by eexists].
  - apply (Hkeys 1%nat); [by_evaluation|by eexists].
Defined.

(** ** Two variables that derive the same key *)






